(** * primes.c: a bit-packed Sieve of Eratosthenes

    A shallow embedding of [src/primes.c] and the proofs of its
    specification.

    Conventions of the embedding.

    - A [char *] into the block returned by [calloc] is its byte offset
      from [start], a [Z]; [start] itself is the offset [0].
    - A byte of the block is its bit pattern, a [Z] in [[0, 256)]; a value
      assigned to a [char] is reduced with [to_char].  The program only
      ever looks at one bit of a byte, so it does not matter whether
      [char] is signed, and the shifts are the two's complement ones.
    - The [long] and [char] counters are [Z].  A bit offset stays within
      [[-1, 14]] (see [advance_spec]).  The largest [long] the program
      computes is the byte offset of [p * p] in eliminateMults: it fits
      64 bits, and so is the number that the source computes, for every
      cursor inside a block of at most [2 ^ 30] bytes, the largest block
      that main can ask for (see [eliminate_start_fits_long]).  Past
      that range the embedding goes on with the number itself where the
      source would wrap, so the theorems about the crossing out of an
      arbitrary cursor or block are stated within it.
    - [(int)sqrt(max)] is [Z.sqrt max]; the two agree on the powers of two
      that main passes.
    - The [int] that main gets from [atoi] is the number of the argument
      reduced to 32 bits, as the C library does it.
    - A store outside the block is a [Fault].  A load outside the block
      returns whatever the surrounding heap holds there, the parameter
      [beyond], and is recorded in the [strayed] flag of the memory.
    - A [while] loop is a [Fixpoint] on a fuel argument that returns
      [Timeout] when the fuel is used up; each function supplies the fuel
      from a measure of its arguments, and the theorems show that it
      never runs out where the C loop terminates. *)

From Stdlib Require Import ZArith Znumtheory Lia Bool Ascii String DecimalString DecimalPos Sorted.
From stdpp Require Import base tactics option list list_numbers.

Local Open Scope Z_scope.

(** ** Constants of the source *)

Definition POWER : Z := 20.
Definition SPECIAL_ONE : Z := 128.
Definition CHAR_BIT : Z := 8.

(** ** Outcomes and memory *)

(** [Fault] is a step the embedding gives no meaning to: a store outside
    the block, or the [int] shift of main when it overflows.  [Timeout] is
    a loop that has used up its fuel. *)
Inductive result (A : Type) : Type :=
| Ok (a : A)
| Fault
| Timeout.
Arguments Ok {A} a.
Arguments Fault {A}.
Arguments Timeout {A}.

#[global] Instance result_ret : MRet result := fun _ a => Ok a.
#[global] Instance result_bind : MBind result := fun _ _ k r =>
  match r with
  | Ok a => k a
  | Fault => Fault
  | Timeout => Timeout
  end.

Record mem : Type := Mem {
  bytes : list Z;
  strayed : bool
}.

(** The stored form of a value assigned to a [char]. *)
Definition to_char (v : Z) : Z := v mod 256.

(** [calloc(sizeof(char), max)] *)
Definition calloc (max : Z) : mem := Mem (replicate (Z.to_nat max) 0) false.

Definition size (m : mem) : Z := Z.of_nat (length (bytes m)).

Definition in_block (current : Z) (m : mem) : bool :=
  (0 <=? current) && (current <? size m).

Section Heap.

(** What a load finds at an offset outside the block. *)
Variable beyond : Z -> Z.

Definition load (current : Z) (m : mem) : Z * mem :=
  if in_block current m
  then (default 0 (bytes m !! Z.to_nat current), m)
  else (beyond current, Mem (bytes m) true).

Definition store (current : Z) (v : Z) (m : mem) : result mem :=
  if in_block current m
  then Ok (Mem (<[Z.to_nat current := to_char v]> (bytes m)) (strayed m))
  else Fault.

(** ** setToOne *)

Definition setToOne (current ind : Z) (m : mem) : result mem :=
  let '(b, m) := load current m in
  store current (Z.lor b (Z.shiftr SPECIAL_ONE ind)) m.

(** ** eliminateMults *)

(** The pair (byte offset, bit offset) after the jump by [p] at the end
    of one round of the elimination loop. *)
Definition advance (pointind ind : Z) (c : Z * Z) : Z * Z :=
  let current := fst c + pointind in
  let currind := snd c + ind in
  if CHAR_BIT <=? currind
  then (current + 1, currind - CHAR_BIT)
  else (current, currind).

(** [while(current < end)] of eliminateMults. *)
Fixpoint eliminate_loop (fuel : nat) (pointind ind end_ : Z)
    (c : Z * Z) (m : mem) : result mem :=
  if fst c <? end_ then
    match fuel with
    | O => Timeout
    | S fuel =>
        m ← setToOne (fst c) (snd c) m;
        eliminate_loop fuel pointind ind end_ (advance pointind ind c) m
    end
  else Ok m.

(** A value brought into a 64-bit [long], in two's complement. *)
Definition to_long (v : Z) : Z := (v + 2 ^ 63) mod 2 ^ 64 - 2 ^ 63.

(** The byte offset of [p * p] as the 64-bit arithmetic of the source
    yields it. *)
Definition offset_long (pointind ind : Z) : Z :=
  to_long (CHAR_BIT * pointind * pointind + 2 * pointind * ind).

(** The cursor on [p * p] that eliminateMults computes before its loop.
    The byte offset is a [long] in the source; it is computed here
    without the wrap of 64 bits, which the source does not reach while
    [pointind < 2 ^ 30] (see [offset_long_exact]). *)
Definition eliminate_start (start pointind ind : Z) : Z * Z :=
  let current := start in
  let current := current + (CHAR_BIT * pointind * pointind + 2 * pointind * ind) in
  let currind := ind * ind in
  if CHAR_BIT <=? currind
  then (current + Z.quot currind CHAR_BIT, Z.rem currind CHAR_BIT)
  else (current, currind).

(** The fuel is the number of bits from the first byte touched to [end_];
    every round moves the cursor forward by [p] bits. *)
Definition eliminateMults (start pointind ind end_ : Z) (m : mem) : result mem :=
  let c := eliminate_start start pointind ind in
  eliminate_loop (Z.to_nat (CHAR_BIT * (end_ - fst c))) pointind ind end_ c m.

(** ** searchForZero *)

Record cursor : Type := Cursor {
  current : Z;
  pointind : Z;
  ind : Z
}.

(** The increment of [ind] followed by the carry into [current] and
    [pointind]. *)
Definition next_bit (c : cursor) : cursor :=
  let i := ind c + 1 in
  if CHAR_BIT <=? i
  then Cursor (current c + 1) (pointind c + 1) (i - CHAR_BIT)
  else Cursor (current c) (pointind c) i.

(** The test of the scanner on the byte [b]: [temp = b << ind;
    temp &= SPECIAL_ONE; temp == 0]. *)
Definition is_zero (b i : Z) : bool :=
  let temp := to_char (Z.shiftl b i) in
  let temp := to_char (Z.land temp SPECIAL_ONE) in
  temp =? 0.

(** The [while] loop of searchForZero. *)
Fixpoint search_loop (fuel : nat) (end_ : Z) (c : cursor) (m : mem)
    : result (cursor * mem) :=
  if current c <? end_ then
    match fuel with
    | O => Timeout
    | S fuel =>
        let '(b, m) := load (current c) m in
        if is_zero b (ind c) then Ok (c, m)
        else search_loop fuel end_ (next_bit c) m
    end
  else Ok (Cursor (current c) (pointind c) (-1), m).

(** The fuel is the number of bits from the cursor to [end_]; every round
    moves the cursor forward by one bit. *)
Definition searchForZero (end_ : Z) (c : cursor) (m : mem)
    : result (cursor * mem) :=
  let c := next_bit c in
  search_loop (Z.to_nat (CHAR_BIT * (end_ - current c) - ind c)) end_ c m.

(** ** findPrimes *)

(** One round of [while(ind != -1)] in findPrimes. *)
Definition sieve_round (start endsqrt end_ : Z) (s : cursor * mem)
    : result (cursor * mem) :=
  let '(c, m) := s in
  m ← eliminateMults start (pointind c) (ind c) end_ m;
  searchForZero endsqrt c m.

Fixpoint sieve_loop (fuel : nat) (start endsqrt end_ : Z) (s : cursor * mem)
    : result mem :=
  if ind (fst s) =? -1 then Ok (snd s)
  else
    match fuel with
    | O => Timeout
    | S fuel =>
        s ← sieve_round start endsqrt end_ s;
        sieve_loop fuel start endsqrt end_ s
    end.

(** The state in which findPrimes enters its loop. *)
Definition sieve_init (start : Z) (m : mem) : result (cursor * mem) :=
  let current := start in
  let ind := 0 in
  let pointind := 0 in
  m ← setToOne current ind m;
  let ind := ind + 1 in
  m ← setToOne current ind m;
  let ind := ind + 1 in
  Ok (Cursor current pointind ind, m).

(** The fuel is one more than the number of bits before [endsqrt]; every
    round moves the cursor forward. *)
Definition findPrimes (start endsqrt end_ : Z) (m : mem) : result mem :=
  s ← sieve_init start m;
  sieve_loop (S (Z.to_nat (CHAR_BIT * (endsqrt - start)))) start endsqrt end_ s.

(** ** printPrimes *)

Definition newline : string := String (ascii_of_nat 10) EmptyString.

(** The text of a [%d] or [%ld] conversion. *)
Definition decimal (n : Z) : string := NilZero.string_of_int (Z.to_int n).

(** [fprintf(primes, "%ld\n", n)] on the text written so far. *)
Definition fprintf_ld (file : string) (n : Z) : string :=
  String.append file (String.append (decimal n) newline).

(** [file] is the text written to the stream [primes] so far. *)
Fixpoint print_loop (fuel : nat) (end_ : Z) (file : string)
    (s : cursor * mem) : result (string * mem) :=
  if ind (fst s) =? -1 then Ok (file, snd s)
  else
    match fuel with
    | O => Timeout
    | S fuel =>
        let file := fprintf_ld file (CHAR_BIT * pointind (fst s) + ind (fst s)) in
        s ← searchForZero end_ (fst s) (snd s);
        print_loop fuel end_ file s
    end.

Definition printPrimes (file : string) (start end_ : Z) (m : mem)
    : result (string * mem) :=
  let ind := 0 in
  let pointind := 0 in
  s ← searchForZero end_ (Cursor start pointind ind) m;
  print_loop (Z.to_nat (CHAR_BIT * (end_ - start))) end_ file s.

(** ** main *)

Definition isspace (a : ascii) : bool :=
  let n := Z.of_nat (nat_of_ascii a) in
  (n =? 32) || ((9 <=? n) && (n <=? 13)).

Definition digit (a : ascii) : option Z :=
  let n := Z.of_nat (nat_of_ascii a) in
  if (48 <=? n) && (n <=? 57) then Some (n - 48) else None.

Fixpoint atoi_digits (acc : Z) (s : string) : Z :=
  match s with
  | String a s' =>
      match digit a with
      | Some d => atoi_digits (10 * acc + d) s'
      | None => acc
      end
  | EmptyString => acc
  end.

Definition atoi_signed (s : string) : Z :=
  match s with
  | String "-" s' => - atoi_digits 0 s'
  | String "+" s' => atoi_digits 0 s'
  | _ => atoi_digits 0 s
  end.

(** The number that a text begins with: white space, an optional sign,
    then digits up to the first character that is not one; 0 when there
    is no digit. *)
Fixpoint numeral (s : string) : Z :=
  match s with
  | String a s' => if isspace a then numeral s' else atoi_signed s
  | EmptyString => 0
  end.

Definition LONG_MIN : Z := - 2 ^ 63.
Definition LONG_MAX : Z := 2 ^ 63 - 1.

(** [strtol(s, NULL, 10)]: the number the text begins with, brought back
    to [LONG_MAX] or [LONG_MIN] when it does not fit a [long]. *)
Definition strtol (s : string) : Z :=
  Z.max LONG_MIN (Z.min LONG_MAX (numeral s)).

(** The conversion of a [long] to [int]: the low 32 bits, in two's
    complement. *)
Definition to_int (v : Z) : Z := (v + 2 ^ 31) mod 2 ^ 32 - 2 ^ 31.

(** The C library's [atoi] as the GNU library on a 64-bit platform has
    it: [(int) strtol(s, NULL, 10)].  A number that does not fit an [int]
    wraps around. *)
Definition atoi (s : string) : Z := to_int (strtol s).

Record outcome : Type := Outcome {
  exit_code : Z;
  stderr : string;
  primes_txt : option string
}.

(** The exponent main settles on, an [int], and what it has written to
    the error stream when it reaches the allocation. *)
Definition read_power (argv : list string) : Z * string :=
  let argc := Z.of_nat (length argv) in
  let '(power, err) :=
    if negb (argc =? 2) then (POWER, EmptyString)
    else
      let power := atoi (nth 1 argv EmptyString) in
      if power <? 3
      then (POWER, String.append "Invalid value for power" newline)
      else (power, EmptyString) in
  (power,
   String.append err (String.append "power = " (String.append (decimal power) newline))).

(** Everything in main after the exponent is known.  [got_block] and
    [got_file] say whether [calloc] and [fopen] succeed.  [1 << (power - 3)]
    is an [int] shift: it is a [Fault] from [power = 34] on. *)
Definition run (got_block got_file : bool) (power : Z) (err : string)
    : result outcome :=
  if 31 <=? power - 3 then Fault
  else
    let max := Z.shiftl 1 (power - 3) in
    let m := calloc max in
    let start := 0 in
    let end_ := start + max in
    let endsqrt := start + Z.sqrt max + 1 in
    if negb got_block
    then Ok (Outcome 1 (String.append err (String.append "Failed to allocate memory" newline)) None)
    else
      m ← findPrimes start endsqrt end_ m;
      if negb got_file
      then Ok (Outcome 1 (String.append err (String.append "Failed to create ./primes.txt" newline)) None)
      else
        '(file, _) ← printPrimes EmptyString start end_ m;
        Ok (Outcome 0 err (Some file)).

Definition main (got_block got_file : bool) (argv : list string)
    : result outcome :=
  let '(power, err) := read_power argv in
  run got_block got_file power err.

End Heap.

(** ** The bit view of the memory *)

(** The byte a load at offset [i] sees. *)
Definition byte_at (beyond : Z -> Z) (m : mem) (i : Z) : Z :=
  fst (load beyond i m).

(** Whether the bit that stands for the integer [n] is set: bit
    [n mod 8], counted from the most significant one, of byte [n / 8]. *)
Definition marked (beyond : Z -> Z) (m : mem) (n : Z) : bool :=
  Z.testbit (byte_at beyond m (n / 8)) (7 - n mod 8).

(** Every byte of the block is a bit pattern of eight bits. *)
Definition wf (m : mem) : Prop := Forall (fun b => 0 <= b < 256) (bytes m).

(** The integer a cursor stands for, and the agreement of its pointer with
    its index when the block starts at offset [start]. *)
Definition pos (c : cursor) : Z := CHAR_BIT * pointind c + ind c.

Definition agree (start : Z) (c : cursor) : Prop :=
  current c = start + pointind c.

Definition live (c : cursor) : Prop := 0 <= ind c <= 7.

(** ** The state of the sieve *)

(** No prime is marked. *)
Definition sound (beyond : Z -> Z) (m : mem) : Prop :=
  forall n, 0 <= n < 8 * size m -> marked beyond m n = true -> ~ Z.prime n.

(** The multiples [f * k], [k >= f], of every prime [f] below [p] are
    marked. *)
Definition crossed (beyond : Z -> Z) (m : mem) (p : Z) : Prop :=
  forall f k, Z.prime f -> f < p -> f <= k -> f * k < 8 * size m ->
    marked beyond m (f * k) = true.

(** What holds of the memory from the moment findPrimes enters its loop,
    when the primes below [p] have been dealt with. *)
Definition sieved (beyond : Z -> Z) (m : mem) (p : Z) : Prop :=
  wf m /\ sound beyond m /\ crossed beyond m p
  /\ marked beyond m 0 = true /\ marked beyond m 1 = true.

(** The invariant of the loop of findPrimes, at its head, while the cursor
    is live. *)
Definition sieve_inv (beyond : Z -> Z) (s : cursor * mem) : Prop :=
  live (fst s) /\ agree 0 (fst s) /\ 0 <= pointind (fst s)
  /\ 2 <= pos (fst s) /\ sieved beyond (snd s) (pos (fst s)).

(** The clear bits among the integers [lo, hi), in ascending order. *)
Definition clear_between (beyond : Z -> Z) (m : mem) (lo hi : Z) : list Z :=
  filter (fun n => marked beyond m n = false) (seqZ lo (hi - lo)).

(** The text of a file that holds the numbers of [l], one per line. *)
Fixpoint lines (l : list Z) : string :=
  match l with
  | [] => EmptyString
  | n :: l => String.append (decimal n) (String.append newline (lines l))
  end.

(** ** Vocabulary of the claims *)

(** The scanner's reading of the bit of [n]. *)
Definition test_bit (beyond : Z -> Z) (m : mem) (n : Z) : bool :=
  negb (is_zero (byte_at beyond m (n / 8)) (n mod 8)).

(** No bit that is set in [m] is clear in [m']. *)
Definition grows (beyond : Z -> Z) (m m' : mem) : Prop :=
  forall n, 0 <= n -> marked beyond m n = true -> marked beyond m' n = true.

(** [n] is one of [p * p], [p * p + p], [p * p + 2 * p], ... *)
Definition multiple_from_square (p n : Z) : Prop :=
  exists k, 0 <= k /\ n = p * p + k * p.

(** The states at the head of a loop [while(ind != -1) body]. *)
Inductive reach (body : cursor * mem -> result (cursor * mem))
    : cursor * mem -> cursor * mem -> Prop :=
| reach_here (s : cursor * mem) : reach body s s
| reach_round (s s' s'' : cursor * mem) :
    ind (fst s) <> -1 -> body s = Ok s' -> reach body s' s'' ->
    reach body s s''.

(** The body of the loop of printPrimes, as a step on its state. *)
Definition print_round (beyond : Z -> Z) (end_ : Z) (s : cursor * mem)
    : result (cursor * mem) :=
  searchForZero beyond end_ (fst s) (snd s).

(** The text of primes.txt in an outcome of main, if there is one. *)
Definition file_of (r : result outcome) : option string :=
  match r with
  | Ok o => primes_txt o
  | _ => None
  end.

Definition stderr_of (r : result outcome) : option string :=
  match r with
  | Ok o => Some (stderr o)
  | _ => None
  end.

(** The text [s] does not begin with a digit. *)
Definition no_digit_first (s : string) : Prop :=
  match s with
  | String a _ => digit a = None
  | EmptyString => True
  end.

(** ** The sieve with the cutoff of the specification

    Section 4.1 of the specification allows the cutoff [floor (sqrt N) + 1]
    on the integers themselves, [N] being the number of bits of the
    block, in place of the byte boundary [endsqrt].  These definitions
    follow that wording; they are not in the source.  The scan gives up
    at the first integer from [limit] on. *)

Fixpoint tight_search_loop (beyond : Z -> Z) (fuel : nat) (limit : Z)
    (c : cursor) (m : mem) : result (cursor * mem) :=
  if pos c <? limit then
    match fuel with
    | O => Timeout
    | S fuel =>
        let '(b, m) := load beyond (current c) m in
        if is_zero b (ind c) then Ok (c, m)
        else tight_search_loop beyond fuel limit (next_bit c) m
    end
  else Ok (Cursor (current c) (pointind c) (-1), m).

Definition tight_search (beyond : Z -> Z) (limit : Z) (c : cursor) (m : mem)
    : result (cursor * mem) :=
  let c := next_bit c in
  tight_search_loop beyond (Z.to_nat (limit - pos c)) limit c m.

Definition tight_round (beyond : Z -> Z) (start limit end_ : Z)
    (s : cursor * mem) : result (cursor * mem) :=
  let '(c, m) := s in
  m ← eliminateMults beyond start (pointind c) (ind c) end_ m;
  tight_search beyond limit c m.

Fixpoint tight_loop (beyond : Z -> Z) (fuel : nat) (start limit end_ : Z)
    (s : cursor * mem) : result mem :=
  if ind (fst s) =? -1 then Ok (snd s)
  else
    match fuel with
    | O => Timeout
    | S fuel =>
        s ← tight_round beyond start limit end_ s;
        tight_loop beyond fuel start limit end_ s
    end.

Definition findPrimes_tight (beyond : Z -> Z) (start end_ : Z) (m : mem)
    : result mem :=
  let limit := Z.sqrt (CHAR_BIT * (end_ - start)) + 1 in
  s ← sieve_init beyond start m;
  tight_loop beyond (S (Z.to_nat limit)) start limit end_ s.

(** * Proofs *)

(** Linear arithmetic on cursors, seen as integers. *)
Ltac cursor_arith := unfold live, agree, pos, CHAR_BIT in *; lia.

(** ** Bits of a byte *)

Lemma to_char_land (v : Z) : to_char v = Z.land v 255.
Proof. unfold to_char. change 256 with (2 ^ 8). by rewrite <- Z.land_ones. Qed.

Lemma to_char_bits (v j : Z) :
  0 <= j < 8 -> Z.testbit (to_char v) j = Z.testbit v j.
Proof.
  intros Hj. unfold to_char. change 256 with (2 ^ 8).
  apply Z.mod_pow2_bits_low. lia.
Qed.

Lemma to_char_range (v : Z) : 0 <= to_char v < 256.
Proof. unfold to_char. apply Z.mod_pos_bound. lia. Qed.

Lemma land_top_bit (x : Z) :
  Z.land x 128 = if Z.testbit x 7 then 128 else 0.
Proof.
  apply Z.bits_inj'. intros j Hj.
  rewrite Z.land_spec. change 128 with (2 ^ 7) at 1.
  rewrite Z.pow2_bits_eqb by lia.
  destruct (Z.eqb_spec 7 j) as [<- | Hne].
  - rewrite andb_true_r. destruct (Z.testbit x 7); reflexivity.
  - rewrite andb_false_r. destruct (Z.testbit x 7).
    + change 128 with (2 ^ 7). rewrite Z.pow2_bits_eqb by lia.
      symmetry. apply Z.eqb_neq. lia.
    + by rewrite Z.bits_0.
Qed.

Lemma is_zero_testbit (b i : Z) :
  0 <= i <= 7 -> is_zero b i = negb (Z.testbit b (7 - i)).
Proof.
  intros Hi. unfold is_zero, SPECIAL_ONE.
  rewrite land_top_bit, to_char_bits, Z.shiftl_spec by lia.
  destruct (Z.testbit b (7 - i)); reflexivity.
Qed.

Lemma mask_bits (i j : Z) :
  0 <= j -> Z.testbit (Z.shiftr SPECIAL_ONE i) j = (j + i =? 7).
Proof.
  intros Hj. rewrite Z.shiftr_spec by lia.
  unfold SPECIAL_ONE. change 128 with (2 ^ 7).
  destruct (Z.ltb_spec (j + i) 0).
  - rewrite Z.testbit_neg_r by lia. symmetry. apply Z.eqb_neq. lia.
  - rewrite Z.pow2_bits_eqb by lia. apply Z.eqb_sym.
Qed.

(** ** Loads and stores *)

Lemma in_block_iff (i : Z) (m : mem) :
  in_block i m = true <-> 0 <= i < size m.
Proof. unfold in_block. rewrite andb_true_iff, Z.leb_le, Z.ltb_lt. tauto. Qed.

Section Memory.

Variable beyond : Z -> Z.

Lemma load_inside (i : Z) (m : mem) :
  0 <= i < size m ->
  load beyond i m = (default 0 (bytes m !! Z.to_nat i), m).
Proof. intros Hi. unfold load. by rewrite (proj2 (in_block_iff i m) Hi). Qed.

Lemma load_bytes (i : Z) (m : mem) : bytes (snd (load beyond i m)) = bytes m.
Proof. unfold load. by destruct (in_block i m). Qed.

Lemma load_strayed (i : Z) (m : mem) :
  strayed (snd (load beyond i m)) = strayed m || negb (in_block i m).
Proof.
  unfold load. destruct (in_block i m); simpl.
  - by rewrite orb_false_r.
  - by rewrite orb_true_r.
Qed.

Lemma byte_at_bytes (m m' : mem) (i : Z) :
  bytes m' = bytes m -> byte_at beyond m' i = byte_at beyond m i.
Proof.
  intros Hb. unfold byte_at, load, in_block, size. rewrite Hb.
  by destruct (_ && _).
Qed.

Lemma marked_bytes (m m' : mem) (n : Z) :
  bytes m' = bytes m -> marked beyond m' n = marked beyond m n.
Proof. intros Hb. unfold marked. by rewrite (byte_at_bytes m m'). Qed.

Lemma byte_at_inside (m : mem) (i : Z) :
  0 <= i < size m -> bytes m !! Z.to_nat i = Some (byte_at beyond m i).
Proof.
  intros Hi. unfold byte_at. rewrite load_inside by done. simpl.
  destruct (bytes m !! Z.to_nat i) eqn:E; [done|].
  apply lookup_ge_None in E. unfold size in Hi. lia.
Qed.

(** The effect of setToOne inside the block: one bit more, nothing else. *)
Lemma setToOne_inside (i k : Z) (m : mem) :
  0 <= i < size m -> 0 <= k <= 7 ->
  exists m', setToOne beyond i k m = Ok m'
    /\ size m' = size m
    /\ strayed m' = strayed m
    /\ (wf m -> wf m')
    /\ forall n, 0 <= n ->
         marked beyond m' n = marked beyond m n || (n =? CHAR_BIT * i + k).
Proof.
  intros Hi Hk. unfold setToOne. rewrite load_inside by done.
  unfold store. rewrite (proj2 (in_block_iff i m) Hi).
  eexists; split; [reflexivity|].
  assert (Hlen : (Z.to_nat i < length (bytes m))%nat) by (unfold size in Hi; lia).
  split; [|split; [|split]].
  - unfold size. simpl. by rewrite length_insert.
  - reflexivity.
  - unfold wf. simpl. intros Hwf. apply Forall_insert; [done|].
    apply to_char_range.
  - intros n Hn. unfold marked, byte_at, load, in_block, size, CHAR_BIT. simpl.
    rewrite length_insert.
    assert (Hdiv : n = 8 * (n / 8) + n mod 8) by (apply Z.div_mod; lia).
    assert (Hmod : 0 <= n mod 8 < 8) by (apply Z.mod_pos_bound; lia).
    destruct (_ && _) eqn:Hin; simpl.
    + apply andb_true_iff in Hin as [H0 H1].
      apply Z.leb_le in H0. apply Z.ltb_lt in H1.
      destruct (decide (n / 8 = i)) as [Heq | Hne].
      * rewrite Heq. rewrite list_lookup_insert_eq by done. simpl.
        rewrite to_char_bits, Z.lor_spec, mask_bits by lia.
        f_equal. apply eq_true_iff_eq. rewrite !Z.eqb_eq. lia.
      * rewrite list_lookup_insert_ne by lia.
        replace (n =? 8 * i + k) with false; [by rewrite orb_false_r|].
        symmetry. apply Z.eqb_neq. lia.
    + replace (n =? 8 * i + k) with false; [by rewrite orb_false_r|].
      symmetry. apply Z.eqb_neq. intros ->.
      apply andb_false_iff in Hin as [H0 | H1].
      * apply Z.leb_gt in H0. lia.
      * apply Z.ltb_ge in H1. unfold size in Hi.
        assert (8 * i + k < 8 * (i + 1)) by lia.
        assert ((8 * i + k) / 8 < i + 1) by (apply Z.div_lt_upper_bound; lia).
        lia.
Qed.

Lemma setToOne_outside (i k : Z) (m : mem) :
  ~ (0 <= i < size m) -> setToOne beyond i k m = Fault.
Proof.
  intros Hi. unfold setToOne, load, store.
  destruct (in_block i m) eqn:E.
  - apply in_block_iff in E. done.
  - unfold in_block, size in *. simpl. by rewrite E.
Qed.

End Memory.

(** ** The elimination loop *)

Section Crosser.

Variable beyond : Z -> Z.

Lemma advance_spec (q r : Z) (c : Z * Z) :
  0 <= r <= 7 -> 0 <= snd c <= 7 ->
  8 * fst (advance q r c) + snd (advance q r c)
    = 8 * fst c + snd c + (8 * q + r)
  /\ 0 <= snd (advance q r c) <= 7.
Proof.
  intros Hr Hc. unfold advance, CHAR_BIT.
  destruct (Z.leb_spec 8 (snd c + r)); simpl; lia.
Qed.

Lemma advance_fst (q r : Z) (c : Z * Z) :
  0 <= q -> fst c <= fst (advance q r c).
Proof.
  intros Hq. unfold advance, CHAR_BIT.
  destruct (Z.leb_spec 8 (snd c + r)); simpl; lia.
Qed.

Lemma eliminate_loop_spec (fuel : nat) (q r end_ : Z) :
  0 <= r <= 7 -> 0 <= q -> 1 <= 8 * q + r ->
  forall (c : Z * Z) (m : mem),
  0 <= fst c -> 0 <= snd c <= 7 -> end_ <= size m ->
  (Z.to_nat (8 * end_ - (8 * fst c + snd c)) <= fuel)%nat ->
  exists m', eliminate_loop beyond fuel q r end_ c m = Ok m'
    /\ size m' = size m
    /\ strayed m' = strayed m
    /\ (wf m -> wf m')
    /\ forall n, 0 <= n ->
         marked beyond m' n = true <->
         marked beyond m n = true
         \/ (n < 8 * end_
             /\ exists k, 0 <= k /\ n = 8 * fst c + snd c + k * (8 * q + r)).
Proof.
  intros Hr Hq Hp. induction fuel as [|fuel IH]; intros c m Hc0 Hc1 Hend Hfuel.
  - simpl. destruct (Z.ltb_spec (fst c) end_); [lia|].
    exists m. repeat split; try done.
    + by left.
    + intros [?|[Hn [k [Hk ->]]]]; [done|]. nia.
  - simpl. destruct (Z.ltb_spec (fst c) end_) as [Hlt|Hge].
    + destruct (setToOne_inside beyond (fst c) (snd c) m)
        as (m1 & Hset & Hsz1 & Hst1 & Hwf1 & Hbits1); [lia|done|].
      rewrite Hset. simpl.
      destruct (advance_spec q r c Hr Hc1) as [Hpos Hrange].
      pose proof (advance_fst q r c Hq) as Hmono.
      destruct (IH (advance q r c) m1) as (m2 & Hrun & Hsz2 & Hst2 & Hwf2 & Hbits2);
        [lia|done|lia|lia|].
      exists m2. split; [exact Hrun|].
      split; [congruence|]. split; [congruence|]. split; [tauto|].
      intros n Hn. rewrite Hbits2, Hbits1, orb_true_iff, Z.eqb_eq by done.
      unfold CHAR_BIT. rewrite Hpos. split.
      * intros [[?| ->]|[Hlt' [k [Hk ->]]]].
        -- by left.
        -- right. split; [lia|]. exists 0. lia.
        -- right. split; [done|]. exists (k + 1). lia.
      * intros [?|[Hlt' [k [Hk ->]]]]; [by left; left|].
        destruct (decide (k = 0)) as [->|Hk0].
        -- left; right. lia.
        -- right. split; [done|]. exists (k - 1). lia.
    + exists m. repeat split; try done.
      * by left.
      * intros [?|[Hn' [k [Hk ->]]]]; [done|]. nia.
Qed.

Lemma eliminate_start_spec (q r : Z) :
  0 <= r <= 7 ->
  8 * fst (eliminate_start 0 q r) + snd (eliminate_start 0 q r)
    = (8 * q + r) * (8 * q + r)
  /\ 0 <= snd (eliminate_start 0 q r) <= 7.
Proof.
  intros Hr. unfold eliminate_start, CHAR_BIT.
  assert (r = 0 \/ r = 1 \/ r = 2 \/ r = 3 \/ r = 4 \/ r = 5 \/ r = 6 \/ r = 7)
    as Hcases by lia.
  destruct Hcases as [-> |[-> |[-> |[-> |[-> |[-> |[-> | ->]]]]]]]; simpl;
    repeat match goal with
    | |- context [Z.quot ?a ?b] =>
        let v := eval vm_compute in (Z.quot a b) in change (Z.quot a b) with v
    | |- context [Z.rem ?a ?b] =>
        let v := eval vm_compute in (Z.rem a b) in change (Z.rem a b) with v
    end; lia.
Qed.

Lemma eliminate_start_fst (q r : Z) :
  0 <= r <= 7 -> 0 <= q -> 0 <= fst (eliminate_start 0 q r).
Proof.
  intros Hr Hq. unfold eliminate_start, CHAR_BIT.
  destruct (Z.leb_spec 8 (r * r)); simpl.
  - assert (0 <= r * r ÷ 8) by (apply Z.quot_pos; lia). nia.
  - nia.
Qed.

(** What eliminateMults does for a cursor on any [p >= 1], when [end_]
    does not lie past the end of the block. *)
Lemma eliminateMults_spec (q r end_ : Z) (m : mem) :
  0 <= r <= 7 -> 0 <= q -> 1 <= 8 * q + r -> end_ <= size m ->
  exists m', eliminateMults beyond 0 q r end_ m = Ok m'
    /\ size m' = size m
    /\ strayed m' = strayed m
    /\ (wf m -> wf m')
    /\ forall n, 0 <= n ->
         marked beyond m' n = true <->
         marked beyond m n = true
         \/ (n < 8 * end_
             /\ exists k, 0 <= k
                  /\ n = (8 * q + r) * (8 * q + r) + k * (8 * q + r)).
Proof.
  intros Hr Hq Hp Hend. unfold eliminateMults.
  destruct (eliminate_start_spec q r Hr) as [Hpos Hrange].
  pose proof (eliminate_start_fst q r Hr Hq) as Hfst.
  destruct (eliminate_loop_spec
              (Z.to_nat (CHAR_BIT * (end_ - fst (eliminate_start 0 q r))))
              q r end_ Hr Hq Hp (eliminate_start 0 q r) m)
    as (m' & Hrun & Hrest); [done|done|done|unfold CHAR_BIT; lia|].
  exists m'. split; [exact Hrun|]. by rewrite Hpos in Hrest.
Qed.

End Crosser.

(** ** The scanner *)

Section Scanner.

Variable beyond : Z -> Z.

Lemma next_bit_spec (c : cursor) :
  live c -> agree 0 c ->
  live (next_bit c) /\ agree 0 (next_bit c) /\ pos (next_bit c) = pos c + 1
  /\ pointind c <= pointind (next_bit c).
Proof.
  unfold live, agree, pos, next_bit, CHAR_BIT. intros Hl Ha.
  destruct (Z.leb_spec 8 (ind c + 1)); simpl; lia.
Qed.

Lemma pos_div_mod (c : cursor) :
  live c -> pos c / 8 = pointind c /\ pos c mod 8 = ind c.
Proof.
  unfold live. intros Hl.
  pose proof (Z.div_mod (pos c) 8) as Hdm.
  pose proof (Z.mod_pos_bound (pos c) 8) as Hb.
  apply (Z.div_mod_unique 8); [lia|lia|].
  rewrite <- Hdm by lia. reflexivity.
Qed.

Lemma is_zero_cursor (c : cursor) (m : mem) :
  live c -> agree 0 c ->
  is_zero (fst (load beyond (current c) m)) (ind c)
    = negb (marked beyond m (pos c)).
Proof.
  intros Hl Ha. rewrite is_zero_testbit by exact Hl.
  unfold marked, byte_at. destruct (pos_div_mod c Hl) as [-> ->].
  red in Ha. rewrite Ha. by rewrite Z.add_0_l.
Qed.

Lemma search_loop_spec (fuel : nat) (end_ : Z) :
  forall (c : cursor) (m : mem),
  live c -> agree 0 c -> 0 <= pointind c ->
  (Z.to_nat (8 * end_ - pos c) <= fuel)%nat ->
  exists c' m', search_loop beyond fuel end_ c m = Ok (c', m')
    /\ bytes m' = bytes m
    /\ agree 0 c'
    /\ 0 <= pointind c'
    /\ (end_ <= size m -> strayed m' = strayed m)
    /\ ((ind c' = -1
         /\ forall n, pos c <= n < 8 * end_ -> marked beyond m n = true)
        \/ (live c' /\ pos c <= pos c' < 8 * end_
            /\ marked beyond m (pos c') = false
            /\ forall n, pos c <= n < pos c' -> marked beyond m n = true)).
Proof.
  induction fuel as [|fuel IH]; intros c m Hl Ha Hq Hfuel.
  - simpl. destruct (Z.ltb_spec (current c) end_) as [Hlt|Hge].
    + exfalso. cursor_arith.
    + eexists _, m. split; [reflexivity|]. repeat split; try done.
      left. split; [done|]. intros n Hn.
      cursor_arith.
  - simpl. destruct (Z.ltb_spec (current c) end_) as [Hlt|Hge].
    + pose proof (is_zero_cursor c m Hl Ha) as Hz.
      pose proof (load_bytes beyond (current c) m) as Hb.
      pose proof (load_strayed beyond (current c) m) as Hs.
      destruct (load beyond (current c) m) as [b m1]. simpl in Hz, Hb, Hs.
      destruct (is_zero b (ind c)) eqn:Ez.
      * exists c, m1. split; [reflexivity|]. repeat split; try done.
        -- intros Hend. rewrite Hs.
           rewrite (proj2 (in_block_iff (current c) m)); [by rewrite orb_false_r|].
           unfold agree in Ha. lia.
        -- right. split; [done|]. split.
           ++ cursor_arith.
           ++ split; [|intros n Hn; lia].
              symmetry in Hz. by apply negb_true_iff in Hz.
      * destruct (next_bit_spec c Hl Ha) as (Hl' & Ha' & Hpos' & Hq').
        destruct (IH (next_bit c) m1 Hl' Ha') as (c' & m' & Hrun & Hb' & Hag & Hq2 & Hs' & Hres);
          [lia|lia|].
        exists c', m'. split; [exact Hrun|].
        split; [congruence|]. split; [done|]. split; [done|]. split.
        -- intros Hend. rewrite Hs'; [|unfold size in *; by rewrite Hb].
           rewrite Hs.
           rewrite (proj2 (in_block_iff (current c) m)); [by rewrite orb_false_r|].
           unfold agree in Ha. lia.
        -- assert (Hset : marked beyond m (pos c) = true).
           { symmetry in Hz. apply negb_false_iff in Hz. exact Hz. }
           assert (Hsame : forall n, marked beyond m1 n = marked beyond m n).
           { intros n. by apply marked_bytes. }
           destruct Hres as [[Hex Hall]|(Hlive & Hrange & Hclear & Hall)].
           ++ left. split; [done|]. intros n Hn.
              destruct (decide (n = pos c)) as [->|Hne]; [done|].
              rewrite <- Hsame. apply Hall. lia.
           ++ right. split; [done|]. split; [lia|]. split; [by rewrite <- Hsame|].
              intros n Hn.
              destruct (decide (n = pos c)) as [->|Hne]; [done|].
              rewrite <- Hsame. apply Hall. lia.
    + eexists _, m. split; [reflexivity|]. repeat split; try done.
      left. split; [done|]. intros n Hn.
      cursor_arith.
Qed.

(** The contract of searchForZero on a live cursor: the next clear bit
    after it whose byte lies before [end_], or the exhausted cursor. *)
Lemma searchForZero_spec (end_ : Z) (c : cursor) (m : mem) :
  live c -> agree 0 c -> 0 <= pointind c ->
  exists c' m', searchForZero beyond end_ c m = Ok (c', m')
    /\ bytes m' = bytes m
    /\ agree 0 c'
    /\ 0 <= pointind c'
    /\ (end_ <= size m -> strayed m' = strayed m)
    /\ ((ind c' = -1
         /\ forall n, pos c < n < 8 * end_ -> marked beyond m n = true)
        \/ (live c' /\ pos c < pos c' < 8 * end_
            /\ marked beyond m (pos c') = false
            /\ forall n, pos c < n < pos c' -> marked beyond m n = true)).
Proof.
  intros Hl Ha Hq. unfold searchForZero.
  destruct (next_bit_spec c Hl Ha) as (Hl' & Ha' & Hpos' & Hq').
  destruct (search_loop_spec
              (Z.to_nat (CHAR_BIT * (end_ - current (next_bit c)) - ind (next_bit c)))
              end_ (next_bit c) m Hl' Ha')
    as (c' & m' & Hrun & Hb & Hag & Hq2 & Hs & Hres).
  { lia. }
  { unfold agree, pos, CHAR_BIT in *. lia. }
  exists c', m'. split; [exact Hrun|]. repeat (split; [done|]).
  rewrite Hpos' in Hres.
  destruct Hres as [[Hex Hall]|(Hlive & Hrange & Hclear & Hall)].
  - left. split; [done|]. intros n Hn. apply Hall. lia.
  - right. split; [done|]. split; [lia|]. split; [done|].
    intros n Hn. apply Hall. lia.
Qed.

End Scanner.

(** ** Primes and products *)

Lemma product_not_prime (a b : Z) : 2 <= a -> 2 <= b -> ~ Z.prime (a * b).
Proof.
  intros Ha Hb [_ Hp]. apply (Hp a); [nia|]. exists b. lia.
Qed.

Lemma prime_or_not (n : Z) : Z.prime n \/ ~ Z.prime n.
Proof. rewrite prime_alt. destruct (prime_dec n); tauto. Qed.

(** A number from 2 on that is not prime is [f * k] for a prime [f] and
    some [k >= f]. *)
Lemma composite_factor (n : Z) :
  2 <= n -> ~ Z.prime n -> exists f k, Z.prime f /\ f <= k /\ n = f * k.
Proof.
  assert (H : forall (b : nat) n, n <= Z.of_nat b -> 2 <= n -> ~ Z.prime n ->
            exists f k, Z.prime f /\ f <= k /\ n = f * k).
  { clear n. induction b as [|b IH]; intros n Hb Hn Hnp; [lia|].
    destruct (not_prime_divide n) as (d & Hd & e & He);
      [lia|by rewrite <- prime_alt|].
    assert (2 <= e) by nia.
    assert (Hsmall : forall x y, 2 <= x -> x <= y -> n = x * y ->
              exists f k, Z.prime f /\ f <= k /\ n = f * k).
    { intros x y Hx Hxy Hxyn. destruct (prime_or_not x) as [Hpx|Hnpx].
      - by exists x, y.
      - destruct (IH x) as (f & k & Hf & Hfk & Hx'); [nia|done|done|].
        exists f, (k * y). split; [done|]. split; [|subst x; lia].
        pose proof (Z.prime_ge_2 f Hf). nia. }
    destruct (Z.le_gt_cases d e).
    - apply (Hsmall d e); lia.
    - apply (Hsmall e d); lia. }
  intros Hn Hnp. apply (H (Z.to_nat n)); [lia|done|done].
Qed.

(** ** The loop of findPrimes *)

Section Driver.

Variable beyond : Z -> Z.

Lemma sieved_bytes (m m' : mem) (p : Z) :
  bytes m' = bytes m -> sieved beyond m p -> sieved beyond m' p.
Proof.
  intros Hb (Hwf & Hsound & Hcr & H0 & H1).
  assert (Hsz : size m' = size m) by (unfold size; by rewrite Hb).
  assert (Hm : forall n, marked beyond m' n = marked beyond m n)
    by (intros n; by apply marked_bytes).
  unfold sieved, wf, sound, crossed. rewrite Hb, Hsz.
  repeat split; try done.
  - intros n Hn. rewrite Hm. by apply Hsound.
  - intros f k Hf Hlt Hle Hfk. rewrite Hm. by apply Hcr.
  - by rewrite Hm.
  - by rewrite Hm.
Qed.

Lemma crossed_weaken (m : mem) (p p' : Z) :
  p' <= p -> crossed beyond m p -> crossed beyond m p'.
Proof. intros Hle Hcr f k Hf Hlt. apply Hcr; [done|lia]. Qed.

(** Marked positions between two cursors hide no prime factor. *)
Lemma crossed_extend (m : mem) (p p' : Z) :
  sound beyond m -> crossed beyond m (p + 1) ->
  (forall n, p < n < p' -> marked beyond m n = true) ->
  crossed beyond m p'.
Proof.
  intros Hsound Hcr Hall f k Hf Hlt Hle Hfk.
  destruct (Z.le_gt_cases f p) as [Hfp|Hfp]; [apply Hcr; [done|lia|done|done]|].
  pose proof (Z.prime_ge_2 f Hf) as Hf2.
  exfalso. apply (Hsound f); [nia| |done]. apply Hall. lia.
Qed.

Lemma eliminate_sieved (c : cursor) (m m1 : mem) :
  live c -> 2 <= pos c -> size m1 = size m -> (wf m -> wf m1) ->
  (forall n, 0 <= n ->
     marked beyond m1 n = true <->
     marked beyond m n = true
     \/ (n < 8 * size m
         /\ exists k, 0 <= k
              /\ n = (8 * pointind c + ind c) * (8 * pointind c + ind c)
                     + k * (8 * pointind c + ind c))) ->
  sieved beyond m (pos c) -> sieved beyond m1 (pos c + 1).
Proof.
  unfold pos, CHAR_BIT. set (p := 8 * pointind c + ind c).
  intros Hl Hp Hsz Hwf Hbits (Hwf0 & Hsound & Hcr & H0 & H1).
  split; [tauto|]. split; [|split; [|split]].
  - intros n Hn. rewrite Hsz in Hn. rewrite Hbits by lia.
    intros [Hm|[_ [k [Hk ->]]]]; [by apply Hsound|].
    replace (p * p + k * p) with (p * (p + k)) by lia.
    apply product_not_prime; lia.
  - intros f k Hf Hlt Hle Hfk. rewrite Hsz in Hfk.
    pose proof (Z.prime_ge_2 f Hf) as Hf2.
    rewrite Hbits by nia.
    destruct (decide (f = p)) as [->|Hne].
    + right. split; [done|]. exists (k - p). split; lia.
    + left. apply Hcr; [done|lia|done|done].
  - rewrite Hbits by lia. by left.
  - rewrite Hbits by lia. by left.
Qed.

Lemma sieve_round_spec (endsqrt : Z) (c : cursor) (m : mem) :
  sieve_inv beyond (c, m) ->
  exists c' m', sieve_round beyond 0 endsqrt (size m) (c, m) = Ok (c', m')
    /\ size m' = size m
    /\ (endsqrt <= size m -> strayed m' = strayed m)
    /\ (forall n, 0 <= n ->
          marked beyond m n = true -> marked beyond m' n = true)
    /\ ((ind c' = -1
         /\ sieved beyond m' (Z.max (pos c + 1) (8 * endsqrt)))
        \/ (sieve_inv beyond (c', m') /\ pos c < pos c' < 8 * endsqrt)).
Proof.
  intros (Hl & Ha & Hq & Hp & Hsv). simpl in Hl, Ha, Hq, Hp, Hsv.
  unfold sieve_round.
  destruct (eliminateMults_spec beyond (pointind c) (ind c) (size m) m)
    as (m1 & Hrun1 & Hsz1 & Hst1 & Hwf1 & Hbits1);
    [exact Hl|done|unfold pos, CHAR_BIT in Hp; lia|lia|].
  rewrite Hrun1. simpl.
  destruct (searchForZero_spec beyond endsqrt c m1 Hl Ha Hq)
    as (c' & m2 & Hrun2 & Hb2 & Ha2 & Hq2 & Hst2 & Hres).
  exists c', m2. split; [exact Hrun2|].
  assert (Hsz2 : size m2 = size m1) by (unfold size; by rewrite Hb2).
  assert (Hm2 : forall n, marked beyond m2 n = marked beyond m1 n)
    by (intros n; by apply marked_bytes).
  pose proof (eliminate_sieved c m m1 Hl Hp Hsz1 Hwf1 Hbits1 Hsv) as Hsv1.
  split; [congruence|]. split; [|split].
  - intros Hend. rewrite Hst2 by lia. done.
  - intros n Hn Hm. rewrite Hm2, Hbits1 by done. by left.
  - destruct Hsv1 as (Hwf1' & Hsound1 & Hcr1 & H01 & H11).
    destruct Hres as [[Hex Hall]|(Hlive & Hrange & Hclear & Hall)].
    + left. split; [done|]. apply (sieved_bytes m1); [done|].
      repeat split; try done.
      destruct (Z.max_spec (pos c + 1) (8 * endsqrt)) as [[_ ->]|[_ ->]].
      * by apply (crossed_extend m1 (pos c)).
      * done.
    + right. split; [|done].
      split; [exact Hlive|]. split; [exact Ha2|]. split; [exact Hq2|].
      split; [simpl; lia|]. simpl.
      apply (sieved_bytes m1); [done|].
      repeat split; try done.
      by apply (crossed_extend m1 (pos c)).
Qed.

Lemma sieve_loop_done (fuel : nat) (start endsqrt end_ : Z) (c : cursor) (m : mem) :
  ind c = -1 -> sieve_loop beyond fuel start endsqrt end_ (c, m) = Ok m.
Proof. intros Hc. destruct fuel; simpl; by rewrite Hc. Qed.

Lemma sieve_loop_spec (endsqrt : Z) (fuel : nat) :
  forall (c : cursor) (m : mem),
  sieve_inv beyond (c, m) ->
  (Z.to_nat (8 * endsqrt - pos c) < fuel)%nat ->
  exists m', sieve_loop beyond fuel 0 endsqrt (size m) (c, m) = Ok m'
    /\ size m' = size m
    /\ (endsqrt <= size m -> strayed m' = strayed m)
    /\ (forall n, 0 <= n ->
          marked beyond m n = true -> marked beyond m' n = true)
    /\ sieved beyond m' (8 * endsqrt).
Proof.
  induction fuel as [|fuel IH]; intros c m Hinv Hfuel; [lia|].
  assert (Hlive : live c) by apply Hinv.
  simpl. destruct (Z.eqb_spec (ind c) (-1)) as [He|_]; [red in Hlive; lia|].
  destruct (sieve_round_spec endsqrt c m Hinv)
    as (c' & m1 & Hrun & Hsz1 & Hst1 & Hmono1 & Hres).
  unfold sieve_round in Hrun. rewrite Hrun. simpl.
  destruct Hres as [[Hex Hsv]|[Hinv' Hrange]].
  - rewrite sieve_loop_done by done. exists m1. repeat split; try done.
    + apply Hsv.
    + apply Hsv.
    + eapply crossed_weaken; [|apply Hsv]. lia.
    + apply Hsv.
    + apply Hsv.
  - destruct (IH c' m1 Hinv') as (m' & Hrun' & Hsz' & Hst' & Hmono' & Hsv'); [lia|].
    rewrite Hsz1 in Hrun'. exists m'. split; [exact Hrun'|].
    split; [congruence|]. split; [|split; [|done]].
    + intros Hend. rewrite Hst' by lia. by apply Hst1.
    + intros n Hn Hm. by apply Hmono', Hmono1.
Qed.

End Driver.

(** ** findPrimes on a fresh block *)

Section Sieve.

Variable beyond : Z -> Z.

Lemma calloc_size (B : Z) : 0 <= B -> size (calloc B) = B.
Proof. intros HB. unfold size, calloc. simpl. rewrite length_replicate. lia. Qed.

Lemma calloc_wf (B : Z) : wf (calloc B).
Proof. unfold wf, calloc. simpl. apply Forall_replicate. lia. Qed.

Lemma calloc_clear (B n : Z) :
  0 <= n < 8 * B -> marked beyond (calloc B) n = false.
Proof.
  intros Hn. unfold marked.
  assert (Hq : 0 <= n / 8 < B).
  { split; [apply Z.div_pos; lia|apply Z.div_lt_upper_bound; lia]. }
  pose proof (byte_at_inside beyond (calloc B) (n / 8)) as Hb.
  rewrite calloc_size in Hb by lia. specialize (Hb Hq).
  unfold calloc in Hb at 1. simpl in Hb.
  apply lookup_replicate in Hb as [-> _]. apply Z.bits_0.
Qed.

Lemma sieve_init_spec (m : mem) :
  1 <= size m ->
  exists m', sieve_init beyond 0 m = Ok (Cursor 0 0 2, m')
    /\ size m' = size m
    /\ strayed m' = strayed m
    /\ (wf m -> wf m')
    /\ forall n, 0 <= n ->
         marked beyond m' n = marked beyond m n || (n =? 0) || (n =? 1).
Proof.
  intros Hsz. unfold sieve_init.
  destruct (setToOne_inside beyond 0 0 m) as (m1 & Hr1 & Hs1 & Hst1 & Hwf1 & Hb1);
    [lia|lia|].
  rewrite Hr1. simpl.
  destruct (setToOne_inside beyond 0 1 m1) as (m2 & Hr2 & Hs2 & Hst2 & Hwf2 & Hb2);
    [lia|lia|].
  change (0 + 1) with 1. rewrite Hr2. simpl.
  exists m2. split; [reflexivity|].
  split; [congruence|]. split; [congruence|]. split; [tauto|].
  intros n Hn. by rewrite Hb2, Hb1.
Qed.

Lemma sieve_init_calloc (B : Z) :
  1 <= B ->
  exists m0, sieve_init beyond 0 (calloc B) = Ok (Cursor 0 0 2, m0)
    /\ size m0 = B
    /\ strayed m0 = false
    /\ sieve_inv beyond (Cursor 0 0 2, m0).
Proof.
  intros HB. pose proof (calloc_size B ltac:(lia)) as Hsz.
  destruct (sieve_init_spec (calloc B)) as (m0 & Hr0 & Hs0 & Hst0 & Hwf0 & Hb0);
    [lia|].
  exists m0. split; [exact Hr0|]. split; [congruence|]. split; [exact Hst0|].
  split; [red; simpl; lia|]. split; [reflexivity|].
  split; [simpl; lia|]. split; [unfold pos, CHAR_BIT; simpl; lia|]. simpl.
  split; [apply Hwf0, calloc_wf|]. split; [|split; [|split]].
  - intros n Hn. rewrite Hb0 by lia. rewrite calloc_clear by lia. simpl.
    rewrite orb_true_iff, !Z.eqb_eq.
    intros [->| ->]; [apply Z.not_prime_0|apply Z.not_prime_1].
  - intros f k Hf Hlt. pose proof (Z.prime_ge_2 f Hf).
    unfold pos, CHAR_BIT in Hlt. simpl in Hlt. lia.
  - rewrite Hb0 by lia. simpl. by rewrite orb_true_r.
  - rewrite Hb0 by lia. simpl. by rewrite orb_true_r.
Qed.

(** findPrimes on a fresh block of [B] bytes runs to its end, and leaves
    a block in which the multiples of the primes below [8 * endsqrt] are
    marked and no prime is. *)
Lemma findPrimes_calloc (B endsqrt : Z) :
  1 <= B ->
  exists m, findPrimes beyond 0 endsqrt B (calloc B) = Ok m
    /\ size m = B
    /\ (endsqrt <= B -> strayed m = false)
    /\ sieved beyond m (8 * endsqrt).
Proof.
  intros HB. unfold findPrimes.
  destruct (sieve_init_calloc B HB) as (m0 & Hr0 & Hs0 & Hst0 & Hinv).
  rewrite Hr0. simpl.
  destruct (sieve_loop_spec beyond endsqrt
              (S (Z.to_nat (CHAR_BIT * (endsqrt - 0)))) (Cursor 0 0 2) m0 Hinv)
    as (m & Hrun & Hs & Hst & _ & Hsv).
  { unfold pos, CHAR_BIT. simpl. lia. }
  exists m. rewrite Hs0 in Hrun. split; [exact Hrun|].
  split; [congruence|]. split; [|done].
  intros Hend. rewrite Hst by lia. done.
Qed.

(** Once the primes below [L] are dealt with and the square of [L] covers
    the bits of the block, the clear bits are the primes. *)
Lemma sieved_primes (m : mem) (L : Z) :
  0 <= L -> 8 * size m <= L * L -> sieved beyond m L ->
  forall n, 0 <= n < 8 * size m ->
    (marked beyond m n = false <-> Z.prime n).
Proof.
  intros HL Hsz (Hwf & Hsound & Hcr & H0 & H1) n Hn. split.
  - intros Hclear. destruct (prime_or_not n) as [Hp|Hnp]; [done|].
    exfalso.
    destruct (decide (n = 0)) as [->|Hn0]; [congruence|].
    destruct (decide (n = 1)) as [->|Hn1]; [congruence|].
    destruct (composite_factor n) as (f & k & Hf & Hfk & ->); [lia|done|].
    pose proof (Z.prime_ge_2 f Hf).
    rewrite Hcr in Hclear; [done|done| |done|lia]. nia.
  - intros Hp. destruct (marked beyond m n) eqn:E; [|done].
    exfalso. by apply (Hsound n).
Qed.

(** Two blocks of bytes with the same bits are the same. *)
Lemma bytes_ext (m1 m2 : mem) :
  wf m1 -> wf m2 -> size m1 = size m2 ->
  (forall n, 0 <= n < 8 * size m1 -> marked beyond m1 n = marked beyond m2 n) ->
  bytes m1 = bytes m2.
Proof.
  intros Hwf1 Hwf2 Hsz Hbits. apply list_eq. intros i.
  destruct (decide (i < length (bytes m1))%nat) as [Hi|Hi].
  - assert (Hin1 : 0 <= Z.of_nat i < size m1) by (unfold size; lia).
    assert (Hin2 : 0 <= Z.of_nat i < size m2) by lia.
    pose proof (byte_at_inside beyond m1 _ Hin1) as H1.
    pose proof (byte_at_inside beyond m2 _ Hin2) as H2.
    rewrite Nat2Z.id in H1, H2. rewrite H1, H2. f_equal.
    pose proof (proj1 (Forall_lookup _ _) Hwf1 _ _ H1) as Hr1.
    pose proof (proj1 (Forall_lookup _ _) Hwf2 _ _ H2) as Hr2.
    simpl in Hr1, Hr2.
    apply Z.bits_inj'. intros j Hj.
    destruct (Z.lt_ge_cases j 8) as [Hlt|Hge].
    + specialize (Hbits (8 * Z.of_nat i + (7 - j))). unfold marked in Hbits.
      assert (Hd : (8 * Z.of_nat i + (7 - j)) / 8 = Z.of_nat i
                   /\ (8 * Z.of_nat i + (7 - j)) mod 8 = 7 - j).
      { apply (Z.div_mod_unique 8).
        - left. apply Z.mod_pos_bound. lia.
        - lia.
        - rewrite <- Z.div_mod by lia. done. }
      destruct Hd as [Hd1 Hd2]. rewrite Hd1, Hd2 in Hbits.
      replace (7 - (7 - j)) with j in Hbits by lia. apply Hbits. lia.
    + rewrite <- (Z.mod_small _ 256 Hr1), <- (Z.mod_small _ 256 Hr2).
      change 256 with (2 ^ 8). by rewrite !Z.mod_pow2_bits_high by lia.
  - rewrite !lookup_ge_None_2; [done| |lia].
    unfold size in Hsz. lia.
Qed.

End Sieve.

(** ** The enumeration *)

Section Enumerator.

Variable beyond : Z -> Z.

Lemma clear_between_bytes (m m' : mem) (lo hi : Z) :
  bytes m' = bytes m ->
  clear_between beyond m' lo hi = clear_between beyond m lo hi.
Proof.
  intros Hb. unfold clear_between. apply list_filter_iff.
  intros n. by rewrite (marked_bytes beyond m m').
Qed.

Lemma clear_between_nil (m : mem) (lo hi : Z) :
  (forall n, lo <= n < hi -> marked beyond m n = true) ->
  clear_between beyond m lo hi = [].
Proof.
  intros Hall. unfold clear_between.
  destruct (filter _ _) as [|x l] eqn:E; [done|].
  assert (Hx : x ∈ filter (fun n => marked beyond m n = false) (seqZ lo (hi - lo)))
    by (rewrite E; left).
  apply list_elem_of_filter in Hx as [Hc Hx]. apply elem_of_seqZ in Hx.
  rewrite Hall in Hc by lia. done.
Qed.

Lemma clear_between_first (m : mem) (lo hi p : Z) :
  lo <= p < hi ->
  (forall n, lo <= n < p -> marked beyond m n = true) ->
  marked beyond m p = false ->
  clear_between beyond m lo hi = p :: clear_between beyond m (p + 1) hi.
Proof.
  intros Hp Hall Hclear. unfold clear_between.
  replace (hi - lo) with ((p - lo) + (hi - p)) by lia.
  rewrite seqZ_app, filter_app by lia.
  fold (clear_between beyond m lo p).
  replace (p - lo) with (p - lo) by done.
  assert (Hnil : filter (fun n => marked beyond m n = false) (seqZ lo (p - lo)) = []).
  { apply (clear_between_nil m lo p Hall). }
  unfold clear_between. rewrite Hnil. simpl.
  replace (lo + (p - lo)) with p by lia.
  rewrite seqZ_cons by lia. rewrite filter_cons_True by done.
  f_equal. f_equal. f_equal; lia.
Qed.

Lemma clear_between_elem (m : mem) (lo hi n : Z) :
  n ∈ clear_between beyond m lo hi <-> lo <= n < hi /\ marked beyond m n = false.
Proof.
  unfold clear_between. rewrite list_elem_of_filter, elem_of_seqZ. intuition lia.
Qed.

Lemma filter_sorted (P : Z -> Prop) `{!forall x, Decision (P x)} (l : list Z) :
  StronglySorted Z.lt l -> StronglySorted Z.lt (filter P l).
Proof.
  induction 1 as [|x l Hs IH Hall]; [constructor|].
  rewrite filter_cons. destruct (decide (P x)); [|done].
  constructor; [done|].
  apply Forall_forall. intros y Hy. apply list_elem_of_filter in Hy as [_ Hy].
  by apply (proj1 (Forall_forall _ _) Hall).
Qed.

Lemma seqZ_sorted (len : nat) (lo : Z) :
  StronglySorted Z.lt (seqZ lo (Z.of_nat len)).
Proof.
  revert lo. induction len as [|len IH]; intros lo.
  - rewrite seqZ_nil by lia. constructor.
  - rewrite seqZ_cons by lia. constructor.
    + replace (Z.pred (Z.of_nat (S len))) with (Z.of_nat len) by lia. apply IH.
    + apply Forall_forall. intros y Hy. apply elem_of_seqZ in Hy. lia.
Qed.

Lemma clear_between_sorted (m : mem) (lo hi : Z) :
  StronglySorted Z.lt (clear_between beyond m lo hi).
Proof.
  unfold clear_between. apply filter_sorted.
  destruct (Z.le_gt_cases (hi - lo) 0).
  - rewrite seqZ_nil by done. constructor.
  - replace (hi - lo) with (Z.of_nat (Z.to_nat (hi - lo))) by lia.
    apply seqZ_sorted.
Qed.

Lemma append_assoc (a b c : string) :
  String.append (String.append a b) c = String.append a (String.append b c).
Proof. induction a as [|x a IH]; simpl; [done|]. by rewrite IH. Qed.

Lemma append_empty_r (a : string) : String.append a EmptyString = a.
Proof. induction a as [|x a IH]; simpl; [done|]. by rewrite IH. Qed.

Lemma fold_fprintf_ld (l : list Z) (file : string) :
  fold_left fprintf_ld l file = String.append file (lines l).
Proof.
  revert file. induction l as [|n l IH]; intros file; simpl.
  - by rewrite append_empty_r.
  - rewrite IH. unfold fprintf_ld. by rewrite !append_assoc.
Qed.

Lemma print_loop_done (fuel : nat) (end_ : Z) (file : string) (c : cursor) (m : mem) :
  ind c = -1 -> print_loop beyond fuel end_ file (c, m) = Ok (file, m).
Proof. intros Hc. destruct fuel; simpl; by rewrite Hc. Qed.

Lemma print_loop_spec (end_ : Z) (fuel : nat) :
  forall (c : cursor) (m : mem) (file : string),
  live c -> agree 0 c -> 0 <= pointind c -> pos c < 8 * end_ ->
  (Z.to_nat (8 * end_ - pos c) <= fuel)%nat ->
  exists m', print_loop beyond fuel end_ file (c, m)
             = Ok (fold_left fprintf_ld
                     (pos c :: clear_between beyond m (pos c + 1) (8 * end_)) file,
                   m')
    /\ bytes m' = bytes m
    /\ (end_ <= size m -> strayed m' = strayed m).
Proof.
  induction fuel as [|fuel IH]; intros c m file Hl Ha Hq Hlt Hfuel; [lia|].
  simpl. destruct (Z.eqb_spec (ind c) (-1)) as [He|_]; [red in Hl; lia|].
  destruct (searchForZero_spec beyond end_ c m Hl Ha Hq)
    as (c' & m1 & Hrun & Hb & Ha' & Hq' & Hst & Hres).
  rewrite Hrun. simpl. fold (pos c).
  destruct Hres as [[Hex Hall]|(Hlive & Hrange & Hclear & Hall)].
  - rewrite print_loop_done by done. exists m1.
    rewrite clear_between_nil by (intros n Hn; apply Hall; lia). done.
  - destruct (IH c' m1 (fprintf_ld file (pos c)) Hlive Ha' Hq')
      as (m' & Hrun' & Hb' & Hst'); [lia|lia|].
    exists m'. rewrite Hrun'. split; [|split].
    + f_equal. f_equal.
      rewrite (clear_between_bytes m m1) by done.
      rewrite (clear_between_first m (pos c + 1) (8 * end_) (pos c'));
        [done|lia| |done].
      intros n Hn. apply Hall. lia.
    + congruence.
    + intros Hend. rewrite Hst'; [by apply Hst|].
      unfold size in *. by rewrite Hb.
Qed.

(** printPrimes appends to the file the clear bits of the integers from 1
    up to the end of the scan, in ascending order. *)
Lemma printPrimes_spec (end_ : Z) (m : mem) (file : string) :
  exists m', printPrimes beyond file 0 end_ m
             = Ok (String.append file (lines (clear_between beyond m 1 (8 * end_))), m')
    /\ bytes m' = bytes m
    /\ (end_ <= size m -> strayed m' = strayed m).
Proof.
  unfold printPrimes.
  assert (Hl : live (Cursor 0 0 0)) by (red; simpl; lia).
  assert (Ha : agree 0 (Cursor 0 0 0)) by reflexivity.
  destruct (searchForZero_spec beyond end_ (Cursor 0 0 0) m Hl Ha)
    as (c' & m1 & Hrun & Hb & Ha' & Hq' & Hst & Hres); [simpl; lia|].
  rewrite Hrun. simpl. change (pos (Cursor 0 0 0)) with 0 in Hres.
  destruct Hres as [[Hex Hall]|(Hlive & Hrange & Hclear & Hall)].
  - rewrite print_loop_done by done. exists m1.
    rewrite clear_between_nil by (intros n Hn; apply Hall; lia).
    simpl. by rewrite append_empty_r.
  - destruct (print_loop_spec end_ (Z.to_nat (CHAR_BIT * (end_ - 0))) c' m1 file
                Hlive Ha' Hq')
      as (m' & Hrun' & Hb' & Hst'); [lia|unfold CHAR_BIT; lia|].
    exists m'. rewrite Hrun'. split; [|split].
    + f_equal. f_equal. rewrite fold_fprintf_ld. f_equal. f_equal.
      rewrite (clear_between_bytes m m1) by done.
      rewrite (clear_between_first m 1 (8 * end_) (pos c')); [done|lia| |done].
      intros n Hn. apply Hall. lia.
    + congruence.
    + intros Hend. rewrite Hst'; [by apply Hst|].
      unfold size in *. by rewrite Hb.
Qed.

End Enumerator.

(** ** Powers and square roots *)

Lemma pow_split (P : Z) : 3 <= P -> 2 ^ P = 8 * 2 ^ (P - 3) /\ 1 <= 2 ^ (P - 3).
Proof.
  intros HP. split.
  - replace P with (3 + (P - 3)) at 1 by lia. rewrite Z.pow_add_r by lia. done.
  - pose proof (Z.pow_pos_nonneg 2 (P - 3)). lia.
Qed.

Lemma sqrt_cutoff (B : Z) :
  0 <= B -> 0 <= Z.sqrt B + 1 /\ B <= (Z.sqrt B + 1) * (Z.sqrt B + 1).
Proof.
  intros HB. pose proof (Z.sqrt_spec B HB). pose proof (Z.sqrt_nonneg B).
  unfold Z.succ in *. lia.
Qed.

(** ** The sieve with the cutoff on the integers *)

Section Tight.

Variable beyond : Z -> Z.

Lemma tight_search_loop_spec (fuel : nat) (limit : Z) :
  forall (c : cursor) (m : mem),
  live c -> agree 0 c -> 0 <= pointind c ->
  (Z.to_nat (limit - pos c) <= fuel)%nat ->
  exists c' m', tight_search_loop beyond fuel limit c m = Ok (c', m')
    /\ bytes m' = bytes m
    /\ agree 0 c'
    /\ 0 <= pointind c'
    /\ (limit <= 8 * size m -> strayed m' = strayed m)
    /\ ((ind c' = -1
         /\ forall n, pos c <= n < limit -> marked beyond m n = true)
        \/ (live c' /\ pos c <= pos c' < limit
            /\ marked beyond m (pos c') = false
            /\ forall n, pos c <= n < pos c' -> marked beyond m n = true)).
Proof.
  induction fuel as [|fuel IH]; intros c m Hl Ha Hq Hfuel; simpl;
    destruct (Z.ltb_spec (pos c) limit) as [Hlt|Hge]; try lia.
  - eexists _, m. split; [reflexivity|]. repeat split; try done.
    left. split; [done|]. intros n Hn. lia.
  - pose proof (is_zero_cursor beyond c m Hl Ha) as Hz.
    pose proof (load_bytes beyond (current c) m) as Hb.
    pose proof (load_strayed beyond (current c) m) as Hs.
    assert (Hin : limit <= 8 * size m -> in_block (current c) m = true).
    { intros Hend. apply in_block_iff.
      cursor_arith. }
    destruct (load beyond (current c) m) as [b m1]. simpl in Hz, Hb, Hs.
    assert (Hsame : forall n, marked beyond m1 n = marked beyond m n)
      by (intros n; by apply marked_bytes).
    destruct (is_zero b (ind c)) eqn:Ez.
    + exists c, m1. split; [reflexivity|]. repeat split; try done.
      * intros Hend. rewrite Hs, Hin by done. apply orb_false_r.
      * right. split; [done|]. split; [lia|].
        split; [|intros n Hn; lia].
        symmetry in Hz. by apply negb_true_iff in Hz.
    + destruct (next_bit_spec c Hl Ha) as (Hl' & Ha' & Hpos' & Hq').
      destruct (IH (next_bit c) m1 Hl' Ha')
        as (c' & m' & Hrun & Hb' & Hag & Hq2 & Hs' & Hres); [lia|lia|].
      exists c', m'. split; [exact Hrun|].
      split; [congruence|]. split; [done|]. split; [done|].
      assert (Hset : marked beyond m (pos c) = true).
      { symmetry in Hz. by apply negb_false_iff in Hz. }
      split.
      * intros Hend. rewrite Hs'; [|unfold size in *; by rewrite Hb].
        rewrite Hs, Hin by done. apply orb_false_r.
      * destruct Hres as [[Hex Hall]|(Hlive & Hrange & Hclear & Hall)].
        -- left. split; [done|]. intros n Hn.
           destruct (decide (n = pos c)) as [->|Hne]; [done|].
           rewrite <- Hsame. apply Hall. lia.
        -- right. split; [done|]. split; [lia|].
           split; [by rewrite <- Hsame|]. intros n Hn.
           destruct (decide (n = pos c)) as [->|Hne]; [done|].
           rewrite <- Hsame. apply Hall. lia.
  - eexists _, m. split; [reflexivity|]. repeat split; try done.
    left. split; [done|]. intros n Hn. lia.
Qed.

Lemma tight_round_spec (limit : Z) (c : cursor) (m : mem) :
  sieve_inv beyond (c, m) ->
  exists c' m', tight_round beyond 0 limit (size m) (c, m) = Ok (c', m')
    /\ size m' = size m
    /\ (limit <= 8 * size m -> strayed m' = strayed m)
    /\ ((ind c' = -1 /\ sieved beyond m' (Z.max (pos c + 1) limit))
        \/ (sieve_inv beyond (c', m') /\ pos c < pos c' < limit)).
Proof.
  intros (Hl & Ha & Hq & Hp & Hsv). simpl in Hl, Ha, Hq, Hp, Hsv.
  unfold tight_round, tight_search.
  destruct (eliminateMults_spec beyond (pointind c) (ind c) (size m) m)
    as (m1 & Hrun1 & Hsz1 & Hst1 & Hwf1 & Hbits1);
    [exact Hl|done|unfold pos, CHAR_BIT in Hp; lia|lia|].
  rewrite Hrun1. simpl.
  destruct (next_bit_spec c Hl Ha) as (Hl' & Ha' & Hpos' & Hq').
  destruct (tight_search_loop_spec (Z.to_nat (limit - pos (next_bit c))) limit
              (next_bit c) m1 Hl' Ha')
    as (c' & m2 & Hrun2 & Hb2 & Ha2 & Hq2 & Hst2 & Hres); [lia|lia|].
  exists c', m2. split; [exact Hrun2|].
  assert (Hsz2 : size m2 = size m1) by (unfold size; by rewrite Hb2).
  pose proof (eliminate_sieved beyond c m m1 Hl Hp Hsz1 Hwf1 Hbits1 Hsv)
    as (Hwf1' & Hsound1 & Hcr1 & H01 & H11).
  split; [congruence|]. split.
  { intros Hend. rewrite Hst2 by lia. done. }
  rewrite Hpos' in Hres.
  destruct Hres as [[Hex Hall]|(Hlive & Hrange & Hclear & Hall)].
  - left. split; [done|]. apply (sieved_bytes beyond m1); [done|].
    repeat split; try done.
    destruct (Z.max_spec (pos c + 1) limit) as [[_ ->]|[_ ->]]; [|done].
    apply (crossed_extend beyond m1 (pos c)); [done|done|].
    intros n Hn. apply Hall. lia.
  - right. split; [|lia].
    split; [exact Hlive|]. split; [exact Ha2|]. split; [exact Hq2|].
    split; [simpl; lia|]. simpl.
    apply (sieved_bytes beyond m1); [done|].
    repeat split; try done.
    apply (crossed_extend beyond m1 (pos c)); [done|done|].
    intros n Hn. apply Hall. lia.
Qed.

Lemma tight_loop_done (fuel : nat) (start limit end_ : Z) (c : cursor) (m : mem) :
  ind c = -1 -> tight_loop beyond fuel start limit end_ (c, m) = Ok m.
Proof. intros Hc. destruct fuel; simpl; by rewrite Hc. Qed.

Lemma tight_loop_spec (limit : Z) (fuel : nat) :
  forall (c : cursor) (m : mem),
  sieve_inv beyond (c, m) ->
  (Z.to_nat (limit - pos c) < fuel)%nat ->
  exists m', tight_loop beyond fuel 0 limit (size m) (c, m) = Ok m'
    /\ size m' = size m
    /\ (limit <= 8 * size m -> strayed m' = strayed m)
    /\ sieved beyond m' limit.
Proof.
  induction fuel as [|fuel IH]; intros c m Hinv Hfuel; [lia|].
  assert (Hlive : live c) by apply Hinv.
  simpl. destruct (Z.eqb_spec (ind c) (-1)) as [He|_]; [red in Hlive; lia|].
  destruct (tight_round_spec limit c m Hinv)
    as (c' & m1 & Hrun & Hsz1 & Hst1 & Hres).
  unfold tight_round in Hrun. rewrite Hrun. simpl.
  destruct Hres as [[Hex Hsv]|[Hinv' Hrange]].
  - rewrite tight_loop_done by done. exists m1. repeat split; try done;
      try apply Hsv.
    eapply crossed_weaken; [|apply Hsv]. lia.
  - destruct (IH c' m1 Hinv') as (m' & Hrun' & Hsz' & Hst' & Hsv'); [lia|].
    rewrite Hsz1 in Hrun'. exists m'. split; [exact Hrun'|].
    split; [congruence|]. split; [|done].
    intros Hend. rewrite Hst' by lia. by apply Hst1.
Qed.

Lemma findPrimes_tight_calloc (B : Z) :
  1 <= B ->
  exists m, findPrimes_tight beyond 0 B (calloc B) = Ok m
    /\ size m = B
    /\ strayed m = false
    /\ sieved beyond m (Z.sqrt (8 * B) + 1).
Proof.
  intros HB. unfold findPrimes_tight, CHAR_BIT.
  replace (8 * (B - 0)) with (8 * B) by lia.
  destruct (sieve_init_calloc beyond B HB) as (m0 & Hr0 & Hs0 & Hst0 & Hinv).
  rewrite Hr0. simpl.
  destruct (sqrt_cutoff (8 * B)) as [HL Hcover]; [lia|].
  destruct (tight_loop_spec (Z.sqrt (8 * B) + 1)
              (S (Z.to_nat (Z.sqrt (8 * B) + 1))) (Cursor 0 0 2) m0 Hinv)
    as (m & Hrun & Hs & Hst & Hsv).
  { unfold pos, CHAR_BIT. simpl. lia. }
  exists m. rewrite Hs0 in Hrun. split; [exact Hrun|].
  split; [congruence|]. split; [|done].
  rewrite Hst; [done|].
  pose proof (Z.sqrt_spec (8 * B) ltac:(lia)) as Hs8.
  pose proof (Z.sqrt_nonneg (8 * B)). unfold Z.succ in Hs8. rewrite Hs0. nia.
Qed.

End Tight.

(** ** Bits are only ever set *)

Section Growth.

Variable beyond : Z -> Z.

Lemma grows_refl (m : mem) : grows beyond m m.
Proof. by intros n Hn. Qed.

Lemma grows_trans (m1 m2 m3 : mem) :
  grows beyond m1 m2 -> grows beyond m2 m3 -> grows beyond m1 m3.
Proof. intros H12 H23 n Hn Hm. by apply H23, H12. Qed.

Lemma grows_bytes (m m' : mem) : bytes m' = bytes m -> grows beyond m m'.
Proof. intros Hb n Hn. by rewrite (marked_bytes beyond m m'). Qed.

(** Whatever the bit offset, a store of setToOne keeps the bits that were
    set. *)
Lemma setToOne_grows (i k : Z) (m m' : mem) :
  setToOne beyond i k m = Ok m' -> grows beyond m m'.
Proof.
  destruct (decide (0 <= i < size m)) as [Hin|Hout];
    [|by rewrite setToOne_outside].
  unfold setToOne. rewrite load_inside by done.
  unfold store. rewrite (proj2 (in_block_iff i m) Hin). intros [= <-].
  assert (Hlen : (Z.to_nat i < length (bytes m))%nat) by (unfold size in Hin; lia).
  intros n Hn. unfold marked, byte_at, load, in_block, size. simpl.
  rewrite length_insert.
  pose proof (Z.mod_pos_bound n 8 ltac:(lia)) as Hmod.
  destruct (_ && _) eqn:Hin'; simpl; [|done].
  apply andb_true_iff in Hin' as [H0 H1]. apply Z.leb_le in H0.
  destruct (decide (n / 8 = i)) as [Heq|Hne].
  - rewrite Heq, list_lookup_insert_eq by done. simpl.
    rewrite to_char_bits, Z.lor_spec by lia. intros ->. done.
  - by rewrite list_lookup_insert_ne by lia.
Qed.

Lemma eliminate_loop_grows (fuel : nat) (q r end_ : Z) :
  forall (c : Z * Z) (m m' : mem),
  eliminate_loop beyond fuel q r end_ c m = Ok m' -> grows beyond m m'.
Proof.
  induction fuel as [|fuel IH]; intros c m m'; simpl;
    destruct (fst c <? end_); try done; try (intros [= <-]; apply grows_refl).
  destruct (setToOne beyond (fst c) (snd c) m) as [m1| |] eqn:E; try done.
  simpl. intros Hrun. eapply grows_trans; [by eapply setToOne_grows|by eapply IH].
Qed.

Lemma eliminateMults_grows (start q r end_ : Z) (m m' : mem) :
  eliminateMults beyond start q r end_ m = Ok m' -> grows beyond m m'.
Proof. apply eliminate_loop_grows. Qed.

Lemma search_loop_bytes (fuel : nat) (end_ : Z) :
  forall (c c' : cursor) (m m' : mem),
  search_loop beyond fuel end_ c m = Ok (c', m') -> bytes m' = bytes m.
Proof.
  induction fuel as [|fuel IH]; intros c c' m m'; simpl;
    destruct (current c <? end_); try done; try (by intros [= <- <-]).
  pose proof (load_bytes beyond (current c) m) as Hb.
  destruct (load beyond (current c) m) as [b m1]. simpl in Hb.
  destruct (is_zero b (ind c)).
  - intros [= <- <-]. done.
  - intros Hrun. apply IH in Hrun. congruence.
Qed.

Lemma searchForZero_bytes (end_ : Z) (c c' : cursor) (m m' : mem) :
  searchForZero beyond end_ c m = Ok (c', m') -> bytes m' = bytes m.
Proof. apply search_loop_bytes. Qed.

Lemma sieve_round_grows (start endsqrt end_ : Z) (s s' : cursor * mem) :
  sieve_round beyond start endsqrt end_ s = Ok s' ->
  grows beyond (snd s) (snd s').
Proof.
  destruct s as [c m], s' as [c' m']. unfold sieve_round. simpl.
  destruct (eliminateMults beyond start (pointind c) (ind c) end_ m)
    as [m1| |] eqn:E; try done.
  simpl. intros Hrun. apply searchForZero_bytes in Hrun.
  eapply grows_trans; [by eapply eliminateMults_grows|by apply grows_bytes].
Qed.

Lemma reach_sieve_grows (start endsqrt end_ : Z) (s s' : cursor * mem) :
  reach (sieve_round beyond start endsqrt end_) s s' ->
  grows beyond (snd s) (snd s').
Proof.
  induction 1 as [s|s s1 s2 Hne Hbody Hreach IH]; [apply grows_refl|].
  eapply grows_trans; [by eapply sieve_round_grows|exact IH].
Qed.

Lemma reach_print_bytes (end_ : Z) (s s' : cursor * mem) :
  reach (print_round beyond end_) s s' -> bytes (snd s') = bytes (snd s).
Proof.
  induction 1 as [s|s s1 s2 Hne Hbody Hreach IH]; [done|].
  destruct s1 as [c1 m1]. apply searchForZero_bytes in Hbody.
  simpl in *. congruence.
Qed.

(** The loops run through the states that [reach] describes. *)
Lemma sieve_loop_reach (fuel : nat) (start endsqrt end_ : Z) :
  forall (s : cursor * mem) (m' : mem),
  sieve_loop beyond fuel start endsqrt end_ s = Ok m' ->
  exists c', reach (sieve_round beyond start endsqrt end_) s (c', m')
    /\ ind c' = -1.
Proof.
  induction fuel as [|fuel IH]; intros [c m] m'; simpl;
    destruct (Z.eqb_spec (ind c) (-1)) as [He|Hne]; try done;
    try (intros [= <-]; exists c; split; [constructor|done]).
  destruct (eliminateMults beyond start (pointind c) (ind c) end_ m)
    as [m1| |] eqn:E1; try done. simpl.
  destruct (searchForZero beyond endsqrt c m1) as [s1| |] eqn:E2; try done.
  simpl. intros Hrun. destruct (IH s1 m' Hrun) as (c' & Hreach & Hc').
  exists c'. split; [|done].
  apply (reach_round _ (c, m) s1); [done| |done].
  unfold sieve_round. rewrite E1. simpl. exact E2.
Qed.

Lemma print_loop_reach (fuel : nat) (end_ : Z) :
  forall (s : cursor * mem) (file file' : string) (m' : mem),
  print_loop beyond fuel end_ file s = Ok (file', m') ->
  exists c', reach (print_round beyond end_) s (c', m') /\ ind c' = -1.
Proof.
  induction fuel as [|fuel IH]; intros [c m] file file' m'; simpl;
    destruct (Z.eqb_spec (ind c) (-1)) as [He|Hne]; try done;
    try (intros [= <- <-]; exists c; split; [constructor|done]).
  destruct (searchForZero beyond end_ c m) as [s1| |] eqn:E; try done.
  simpl. intros Hrun. destruct (IH s1 _ _ _ Hrun) as (c' & Hreach & Hc').
  exists c'. split; [|done].
  by apply (reach_round _ (c, m) s1).
Qed.

Lemma sieve_init_marks (m : mem) (s : cursor * mem) :
  sieve_init beyond 0 m = Ok s ->
  grows beyond m (snd s)
  /\ marked beyond (snd s) 0 = true /\ marked beyond (snd s) 1 = true.
Proof.
  intros Hrun.
  assert (Hsz : 1 <= size m).
  { unfold sieve_init in Hrun.
    destruct (Z.le_gt_cases 1 (size m)) as [H|H]; [done|].
    rewrite setToOne_outside in Hrun by lia. done. }
  destruct (sieve_init_spec beyond m Hsz) as (m' & Hr & _ & _ & _ & Hb).
  rewrite Hr in Hrun. injection Hrun as <-. simpl. split; [|split].
  - intros n Hn Hm. rewrite Hb, Hm by done. done.
  - rewrite Hb by lia. simpl. by rewrite orb_true_r.
  - rewrite Hb by lia. simpl. by rewrite orb_true_r.
Qed.

Lemma printPrimes_bytes (file file' : string) (start end_ : Z) (m m' : mem) :
  printPrimes beyond file start end_ m = Ok (file', m') -> bytes m' = bytes m.
Proof.
  unfold printPrimes.
  destruct (searchForZero beyond end_ (Cursor start 0 0) m) as [[c1 m1]| |] eqn:E;
    try done.
  simpl. intros Hrun. apply print_loop_reach in Hrun as (c' & Hreach & _).
  apply reach_print_bytes in Hreach. apply searchForZero_bytes in E.
  simpl in Hreach. congruence.
Qed.

End Growth.

(** ** Bit offsets *)

Section Offsets.

Variable beyond : Z -> Z.

Lemma eliminate_loop_unfold (fuel : nat) (q r end_ : Z) (c : Z * Z) (m : mem) :
  eliminate_loop beyond (S fuel) q r end_ c m
  = if fst c <? end_
    then m ← setToOne beyond (fst c) (snd c) m;
         eliminate_loop beyond fuel q r end_ (advance q r c) m
    else Ok m.
Proof. reflexivity. Qed.

Lemma advance_iter_range (q r : Z) (k : nat) (c : Z * Z) :
  0 <= r <= 7 -> 0 <= snd c <= 7 ->
  0 <= snd (Nat.iter k (advance q r) c) <= 7.
Proof.
  intros Hr Hc. induction k as [|k IH]; simpl; [done|].
  by apply advance_spec.
Qed.

Lemma next_bit_live (c : cursor) : live c -> live (next_bit c).
Proof.
  unfold live, next_bit, CHAR_BIT. intros Hl.
  destruct (Z.leb_spec 8 (ind c + 1)); simpl; lia.
Qed.

Lemma next_bit_iter_live (k : nat) (c : cursor) :
  live c -> live (Nat.iter k next_bit c).
Proof.
  intros Hl. induction k as [|k IH]; simpl; [done|]. by apply next_bit_live.
Qed.

Lemma search_loop_shape (fuel : nat) (end_ : Z) :
  forall (c c' : cursor) (m m' : mem),
  live c -> search_loop beyond fuel end_ c m = Ok (c', m') ->
  live c' \/ ind c' = -1.
Proof.
  induction fuel as [|fuel IH]; intros c c' m m' Hl; simpl;
    destruct (current c <? end_); try done; try (intros [= <- <-]; by right).
  destruct (load beyond (current c) m) as [b m1].
  destruct (is_zero b (ind c)).
  - intros [= <- <-]. by left.
  - apply IH. by apply next_bit_live.
Qed.

Lemma searchForZero_shape (end_ : Z) (c c' : cursor) (m m' : mem) :
  live c -> searchForZero beyond end_ c m = Ok (c', m') ->
  live c' \/ ind c' = -1.
Proof. intros Hl. apply search_loop_shape. by apply next_bit_live. Qed.

Lemma reach_sieve_shape (start endsqrt end_ : Z) (s s' : cursor * mem) :
  reach (sieve_round beyond start endsqrt end_) s s' ->
  live (fst s) \/ ind (fst s) = -1 -> live (fst s') \/ ind (fst s') = -1.
Proof.
  induction 1 as [s|s s1 s2 Hne Hbody Hreach IH]; [done|].
  intros [Hl|He]; [|done]. apply IH.
  destruct s as [c m], s1 as [c1 m1]. unfold sieve_round in Hbody.
  destruct (eliminateMults beyond start (pointind c) (ind c) end_ m); try done.
  simpl in Hbody. by eapply searchForZero_shape.
Qed.

Lemma reach_print_shape (end_ : Z) (s s' : cursor * mem) :
  reach (print_round beyond end_) s s' ->
  live (fst s) \/ ind (fst s) = -1 -> live (fst s') \/ ind (fst s') = -1.
Proof.
  induction 1 as [s|s s1 s2 Hne Hbody Hreach IH]; [done|].
  intros [Hl|He]; [|done]. apply IH.
  destruct s1 as [c1 m1]. by eapply searchForZero_shape.
Qed.

(** The byte offset of [p * p] fits a 64-bit [long] for every cursor in a
    block of at most [2 ^ 30] bytes, the largest that main asks for. *)
Lemma eliminate_start_fits_long (q r : Z) :
  0 <= r <= 7 -> 0 <= q < 2 ^ 30 ->
  0 <= fst (eliminate_start 0 q r) < 2 ^ 63.
Proof.
  intros Hr Hq. split; [apply eliminate_start_fst; lia|].
  destruct (eliminate_start_spec q r Hr) as [Hpos Hrange].
  change (2 ^ 30) with 1073741824 in Hq.
  change (2 ^ 63) with 9223372036854775808. nia.
Qed.

(** Within that range the offset of the embedding is the [long] of the
    source. *)
Lemma offset_long_exact (q r : Z) :
  0 <= r <= 7 -> 0 <= q < 2 ^ 30 ->
  offset_long q r = CHAR_BIT * q * q + 2 * q * r.
Proof.
  intros Hr Hq. unfold offset_long, to_long, CHAR_BIT.
  change (2 ^ 30) with 1073741824 in Hq.
  change (2 ^ 63) with 9223372036854775808.
  change (2 ^ 64) with 18446744073709551616.
  rewrite Z.mod_small; nia.
Qed.

(** Past it the two part: the [long] wraps, here to the first byte of the
    block and to a byte before the block. *)
Example offset_long_wraps :
  offset_long (2 ^ 31) 0 = 0
  /\ offset_long 1518500245 3 = -112078069946.
Proof. split; reflexivity. Qed.

End Offsets.

(** ** A second elimination *)

Section Again.

Variable beyond : Z -> Z.

Lemma to_char_testbit (v j : Z) :
  0 <= j -> Z.testbit (to_char v) j = (j <? 8) && Z.testbit v j.
Proof.
  intros Hj. unfold to_char. change 256 with (2 ^ 8).
  destruct (Z.ltb_spec j 8).
  - by rewrite Z.mod_pow2_bits_low by lia.
  - by rewrite Z.mod_pow2_bits_high by lia.
Qed.

Lemma setToOne_inv (i k : Z) (m m1 : mem) :
  setToOne beyond i k m = Ok m1 ->
  exists b, 0 <= i < size m
    /\ bytes m !! Z.to_nat i = Some b
    /\ m1 = Mem (<[Z.to_nat i := to_char (Z.lor b (Z.shiftr SPECIAL_ONE k))]> (bytes m))
               (strayed m).
Proof.
  destruct (decide (0 <= i < size m)) as [Hin|Hout];
    [|by rewrite setToOne_outside].
  unfold setToOne. rewrite load_inside by done.
  unfold store. rewrite (proj2 (in_block_iff i m) Hin). intros [= <-].
  pose proof (byte_at_inside beyond m i Hin) as Hb.
  exists (byte_at beyond m i). rewrite Hb. done.
Qed.

(** A cursor is settled in a memory when setToOne on it changes nothing. *)
Lemma settled_iff (i k : Z) (m : mem) :
  setToOne beyond i k m = Ok m <->
  exists b, 0 <= i < size m /\ bytes m !! Z.to_nat i = Some b
    /\ to_char (Z.lor b (Z.shiftr SPECIAL_ONE k)) = b.
Proof.
  split.
  - intros Hrun. destruct (setToOne_inv i k m m Hrun) as (b & Hin & Hb & Hm).
    exists b. split; [done|]. split; [done|].
    apply (f_equal bytes) in Hm. simpl in Hm.
    apply (f_equal (fun l => l !! Z.to_nat i)) in Hm.
    rewrite list_lookup_insert_eq in Hm by (unfold size in Hin; lia).
    congruence.
  - intros (b & Hin & Hb & Hfix).
    unfold setToOne. rewrite load_inside by done.
    unfold store. rewrite (proj2 (in_block_iff i m) Hin). rewrite Hb. simpl.
    rewrite Hfix, list_insert_id by done. by destruct m.
Qed.

Lemma setToOne_again (i k : Z) (m m1 : mem) :
  setToOne beyond i k m = Ok m1 -> setToOne beyond i k m1 = Ok m1.
Proof.
  intros Hrun. destruct (setToOne_inv i k m m1 Hrun) as (b & Hin & Hb & ->).
  assert (Hlen : (Z.to_nat i < length (bytes m))%nat) by (unfold size in Hin; lia).
  apply settled_iff. eexists. unfold size. simpl. rewrite length_insert.
  split; [done|]. split; [by apply list_lookup_insert_eq|].
  apply Z.bits_inj'. intros j Hj.
  rewrite !to_char_testbit, !Z.lor_spec, to_char_testbit, Z.lor_spec by done.
  destruct (j <? 8), (Z.testbit b j), (Z.testbit _ j); reflexivity.
Qed.

Lemma setToOne_keeps (i k i' k' : Z) (m m' : mem) :
  setToOne beyond i k m = Ok m -> setToOne beyond i' k' m = Ok m' ->
  setToOne beyond i k m' = Ok m'.
Proof.
  intros Hset Hrun. apply settled_iff in Hset as (b & Hin & Hb & Hfix).
  destruct (setToOne_inv i' k' m m' Hrun) as (b' & Hin' & Hb' & ->).
  assert (Hlen : (Z.to_nat i' < length (bytes m))%nat) by (unfold size in Hin'; lia).
  apply settled_iff. unfold size. simpl. rewrite length_insert.
  destruct (decide (i = i')) as [<-|Hne].
  - eexists. split; [done|]. split; [by apply list_lookup_insert_eq|].
    assert (b' = b) as -> by congruence.
    apply Z.bits_inj'. intros j Hj.
    apply (f_equal (fun v => Z.testbit v j)) in Hfix.
    rewrite to_char_testbit, Z.lor_spec in Hfix by done.
    rewrite !to_char_testbit, !Z.lor_spec, to_char_testbit, Z.lor_spec by done.
    destruct (j <? 8), (Z.testbit b j), (Z.testbit (Z.shiftr SPECIAL_ONE k) j),
      (Z.testbit (Z.shiftr SPECIAL_ONE k') j); done.
  - exists b. split; [done|]. split; [|done].
    rewrite list_lookup_insert_ne by lia. done.
Qed.

Lemma eliminate_loop_keeps (i k : Z) (fuel : nat) (q r end_ : Z) :
  forall (c : Z * Z) (m m' : mem),
  setToOne beyond i k m = Ok m ->
  eliminate_loop beyond fuel q r end_ c m = Ok m' ->
  setToOne beyond i k m' = Ok m'.
Proof.
  induction fuel as [|fuel IH]; intros c m m' Hset; simpl;
    destruct (fst c <? end_); try done; try (by intros [= <-]).
  destruct (setToOne beyond (fst c) (snd c) m) as [m1| |] eqn:E; try done.
  simpl. apply IH. by eapply setToOne_keeps.
Qed.

Lemma eliminate_loop_again (fuel : nat) (q r end_ : Z) :
  forall (c : Z * Z) (m m' : mem),
  eliminate_loop beyond fuel q r end_ c m = Ok m' ->
  eliminate_loop beyond fuel q r end_ c m' = Ok m'.
Proof.
  induction fuel as [|fuel IH]; intros c m m'; simpl;
    destruct (fst c <? end_); try done.
  destruct (setToOne beyond (fst c) (snd c) m) as [m1| |] eqn:E; try done.
  simpl. intros Hrun.
  rewrite (eliminate_loop_keeps (fst c) (snd c) fuel q r end_ _ m1 m'
             (setToOne_again _ _ _ _ E) Hrun).
  simpl. by eapply IH.
Qed.

End Again.

(** * The claims *)

(** The sieve and the enumeration, one after the other, on a fresh block
    of any size. *)
Lemma sieve_then_print (beyond : Z -> Z) (B : Z) :
  1 <= B ->
  exists (m m' : mem),
    findPrimes beyond 0 (Z.sqrt B + 1) B (calloc B) = Ok m
    /\ printPrimes beyond EmptyString 0 B m
       = Ok (lines (clear_between beyond m 1 (8 * B)), m')
    /\ forall n, 0 <= n < 8 * B -> (marked beyond m n = false <-> Z.prime n).
Proof.
  intros HB.
  destruct (sqrt_cutoff B) as [He Hcover]; [lia|].
  destruct (findPrimes_calloc beyond B (Z.sqrt B + 1) HB) as (m & Hrun & Hsz & _ & Hsv).
  destruct (printPrimes_spec beyond B m EmptyString) as (m' & Hprint & _).
  exists m, m'. split; [exact Hrun|]. split; [exact Hprint|].
  rewrite <- Hsz.
  apply (sieved_primes beyond m (8 * (Z.sqrt B + 1))); [lia|nia|done].
Qed.

(** C1.  For every exponent [P >= 3], findPrimes followed by printPrimes
    on a zeroed block of [2 ^ (P - 3)] bytes runs to its end, and the file
    then holds one decimal number per line, each line ended by a newline:
    the numbers of a strictly ascending list whose members are exactly
    the primes below [2 ^ P].  This holds whatever the heap holds past
    the block. *)
Theorem primes_txt_exact (beyond : Z -> Z) (P : Z) :
  3 <= P ->
  exists (m m' : mem) (l : list Z),
    findPrimes beyond 0 (Z.sqrt (2 ^ (P - 3)) + 1) (2 ^ (P - 3))
      (calloc (2 ^ (P - 3))) = Ok m
    /\ printPrimes beyond EmptyString 0 (2 ^ (P - 3)) m = Ok (lines l, m')
    /\ StronglySorted Z.lt l
    /\ forall n, n ∈ l <-> Z.prime n /\ n < 2 ^ P.
Proof.
  intros HP. destruct (pow_split P HP) as [HN HB].
  destruct (sieve_then_print beyond (2 ^ (P - 3)) HB)
    as (m & m' & Hrun & Hprint & Hchar).
  exists m, m', (clear_between beyond m 1 (8 * 2 ^ (P - 3))).
  split; [exact Hrun|]. split; [exact Hprint|].
  split; [apply clear_between_sorted|].
  intros n. rewrite clear_between_elem, HN. split.
  - intros [Hn Hclear]. split; [|lia]. apply Hchar; [lia|done].
  - intros [Hp Hn]. pose proof (Z.prime_ge_2 n Hp) as H2.
    split; [lia|]. apply Hchar; [lia|done].
Qed.

Lemma primes_txt_exact_witness :
  3 <= 5 /\
  exists (m m' : mem) (l : list Z),
    findPrimes (fun _ => 0) 0 (Z.sqrt (2 ^ (5 - 3)) + 1) (2 ^ (5 - 3))
      (calloc (2 ^ (5 - 3))) = Ok m
    /\ printPrimes (fun _ => 0) EmptyString 0 (2 ^ (5 - 3)) m = Ok (lines l, m')
    /\ StronglySorted Z.lt l
    /\ forall n, n ∈ l <-> Z.prime n /\ n < 2 ^ 5.
Proof. split; [lia|]. apply (primes_txt_exact (fun _ => 0) 5). lia. Defined.

Lemma eliminate_loop_skip (beyond : Z -> Z) (fuel : nat) (q r end_ : Z)
    (c : Z * Z) (m : mem) :
  end_ <= fst c -> eliminate_loop beyond fuel q r end_ c m = Ok m.
Proof.
  intros Hc. destruct fuel; simpl; destruct (Z.ltb_spec (fst c) end_); (done || lia).
Qed.

(** C2.  Take a block of at most [2 ^ 30] bytes, the largest that main
    can ask for, and a cursor [(pointind, ind)] with [0 <= ind <= 7] on
    an integer [p = 8 * pointind + ind >= 1] that has a bit in the block,
    so every prime below the number of bits; within these bounds the
    [long] offset of [p * p] is computed without overflow.  eliminateMults
    run up to the end of the block returns; afterwards every bit of the
    block at one of [p * p], [p * p + p], [p * p + 2 * p], ... is set, every
    other bit of the block has the value it had, and when [p * p] is not
    below the number of bits of the block the memory is the one it
    was. *)
Theorem eliminateMults_crosses (beyond : Z -> Z) (q r : Z) (m : mem) :
  0 <= r <= 7 -> 1 <= 8 * q + r ->
  8 * q + r < 8 * size m -> size m <= 2 ^ 30 ->
  exists m', eliminateMults beyond 0 q r (size m) m = Ok m'
    /\ size m' = size m
    /\ (forall n, 0 <= n < 8 * size m ->
          multiple_from_square (8 * q + r) n -> marked beyond m' n = true)
    /\ (forall n, 0 <= n < 8 * size m ->
          ~ multiple_from_square (8 * q + r) n ->
          marked beyond m' n = marked beyond m n)
    /\ (8 * size m <= (8 * q + r) * (8 * q + r) -> m' = m).
Proof.
  intros Hr Hp _ _. assert (Hq : 0 <= q) by lia.
  destruct (eliminateMults_spec beyond q r (size m) m Hr Hq Hp)
    as (m' & Hrun & Hsz & _ & _ & Hbits); [lia|].
  exists m'. split; [exact Hrun|]. split; [exact Hsz|].
  split; [|split].
  - intros n Hn Hmul. apply Hbits; [lia|]. right. split; [lia|exact Hmul].
  - intros n Hn Hmul. apply eq_true_iff_eq. rewrite Hbits by lia.
    unfold multiple_from_square in Hmul. tauto.
  - intros Hbig. unfold eliminateMults in Hrun.
    destruct (eliminate_start_spec q r Hr) as [Hpos Hrange].
    rewrite eliminate_loop_skip in Hrun by lia. congruence.
Qed.

Lemma eliminateMults_crosses_witness :
  0 <= 3 <= 7 /\ 1 <= 8 * 0 + 3 /\
  8 * 0 + 3 < 8 * size (calloc 4) /\ size (calloc 4) <= 2 ^ 30 /\
  exists m', eliminateMults (fun _ => 0) 0 0 3 (size (calloc 4)) (calloc 4) = Ok m'
    /\ size m' = size (calloc 4)
    /\ (forall n, 0 <= n < 8 * size (calloc 4) ->
          multiple_from_square (8 * 0 + 3) n -> marked (fun _ => 0) m' n = true)
    /\ (forall n, 0 <= n < 8 * size (calloc 4) ->
          ~ multiple_from_square (8 * 0 + 3) n ->
          marked (fun _ => 0) m' n = marked (fun _ => 0) (calloc 4) n)
    /\ (8 * size (calloc 4) <= (8 * 0 + 3) * (8 * 0 + 3) -> m' = calloc 4).
Proof.
  split; [lia|]. split; [lia|].
  assert (Hin : 8 * 0 + 3 < 8 * size (calloc 4)) by reflexivity.
  assert (Hfit : size (calloc 4) <= 2 ^ 30) by (vm_compute; discriminate).
  split; [exact Hin|]. split; [exact Hfit|].
  apply (eliminateMults_crosses (fun _ => 0) 0 3 (calloc 4)); (lia || assumption).
Defined.

(** C3.  From a live cursor on the integer [n], searchForZero returns,
    leaves every byte as it was, and ends in one of two ways: with
    [ind = -1], and then every bit after [n] whose byte lies before
    [end_] is set; or with a live cursor on some [m > n] whose byte lies
    before [end_] and whose bit is clear, every bit strictly between [n]
    and [m] being set.  So the cursor it returns is never on a set bit. *)
Theorem searchForZero_next_clear (beyond : Z -> Z) (end_ : Z) (c : cursor) (m : mem) :
  live c -> agree 0 c -> 0 <= pointind c ->
  exists c' m', searchForZero beyond end_ c m = Ok (c', m')
    /\ bytes m' = bytes m
    /\ agree 0 c'
    /\ ((ind c' = -1
         /\ forall n, pos c < n < 8 * end_ -> marked beyond m n = true)
        \/ (live c' /\ pos c < pos c' /\ current c' < end_
            /\ marked beyond m (pos c') = false
            /\ forall n, pos c < n < pos c' -> marked beyond m n = true)).
Proof.
  intros Hl Ha Hq.
  destruct (searchForZero_spec beyond end_ c m Hl Ha Hq)
    as (c' & m' & Hrun & Hb & Ha' & Hq' & _ & Hres).
  exists c', m'. split; [exact Hrun|]. split; [exact Hb|]. split; [exact Ha'|].
  destruct Hres as [Hex|(Hlive & Hrange & Hclear & Hall)]; [by left|].
  right. split; [exact Hlive|]. split; [lia|]. split; [|done].
  cursor_arith.
Qed.

Lemma searchForZero_next_clear_witness :
  live (Cursor 0 0 2) /\ agree 0 (Cursor 0 0 2) /\ 0 <= pointind (Cursor 0 0 2) /\
  exists c' m', searchForZero (fun _ => 0) 1 (Cursor 0 0 2) (Mem [202] false) = Ok (c', m')
    /\ bytes m' = bytes (Mem [202] false)
    /\ agree 0 c'
    /\ ((ind c' = -1
         /\ forall n, pos (Cursor 0 0 2) < n < 8 * 1 ->
              marked (fun _ => 0) (Mem [202] false) n = true)
        \/ (live c' /\ pos (Cursor 0 0 2) < pos c' /\ current c' < 1
            /\ marked (fun _ => 0) (Mem [202] false) (pos c') = false
            /\ forall n, pos (Cursor 0 0 2) < n < pos c' ->
                 marked (fun _ => 0) (Mem [202] false) n = true)).
Proof.
  split; [red; simpl; lia|]. split; [reflexivity|]. split; [simpl; lia|].
  apply (searchForZero_next_clear (fun _ => 0) 1 (Cursor 0 0 2) (Mem [202] false)).
  - red; simpl; lia.
  - reflexivity.
  - simpl; lia.
Defined.

(** C4.  For every exponent [P >= 3], on a zeroed block of [2 ^ (P - 3)]
    bytes, findPrimes with the cutoff of the source, the byte boundary
    [floor (sqrt (2 ^ (P - 3))) + 1], ends with the same bytes as the sieve
    that stops at the integer [floor (sqrt (2 ^ P)) + 1], and as findPrimes
    itself with the byte boundary just past the integer
    [floor (sqrt (2 ^ P))]; printPrimes then writes the same file in all
    three cases. *)
Theorem cutoff_equivalence (beyond : Z -> Z) (P : Z) :
  3 <= P ->
  exists (m1 m2 m3 m1' m2' m3' : mem) (file : string),
    findPrimes beyond 0 (Z.sqrt (2 ^ (P - 3)) + 1) (2 ^ (P - 3))
      (calloc (2 ^ (P - 3))) = Ok m1
    /\ findPrimes_tight beyond 0 (2 ^ (P - 3)) (calloc (2 ^ (P - 3))) = Ok m2
    /\ findPrimes beyond 0 (Z.sqrt (2 ^ P) / 8 + 1) (2 ^ (P - 3))
      (calloc (2 ^ (P - 3))) = Ok m3
    /\ bytes m1 = bytes m2
    /\ bytes m1 = bytes m3
    /\ printPrimes beyond EmptyString 0 (2 ^ (P - 3)) m1 = Ok (file, m1')
    /\ printPrimes beyond EmptyString 0 (2 ^ (P - 3)) m2 = Ok (file, m2')
    /\ printPrimes beyond EmptyString 0 (2 ^ (P - 3)) m3 = Ok (file, m3').
Proof.
  intros HP. destruct (pow_split P HP) as [HN HB]. rewrite HN.
  set (B := 2 ^ (P - 3)) in *.
  destruct (sqrt_cutoff B) as [He Hcover]; [lia|].
  destruct (sqrt_cutoff (8 * B)) as [HL HLcover]; [lia|].
  pose proof (Z.sqrt_nonneg (8 * B)) as Hs8.
  pose proof (Z.div_mod (Z.sqrt (8 * B)) 8 ltac:(lia)) as Hdm.
  pose proof (Z.mod_pos_bound (Z.sqrt (8 * B)) 8 ltac:(lia)) as Hmb.
  destruct (findPrimes_calloc beyond B (Z.sqrt B + 1) HB) as (m1 & Hrun1 & Hsz1 & _ & Hsv1).
  destruct (findPrimes_tight_calloc beyond B HB) as (m2 & Hrun2 & Hsz2 & _ & Hsv2).
  destruct (findPrimes_calloc beyond B (Z.sqrt (8 * B) / 8 + 1) HB)
    as (m3 & Hrun3 & Hsz3 & _ & Hsv3).
  assert (Hc1 : forall n, 0 <= n < 8 * size m1 ->
            marked beyond m1 n = false <-> Z.prime n).
  { apply (sieved_primes beyond m1 (8 * (Z.sqrt B + 1))); [lia|nia|done]. }
  assert (Hc2 : forall n, 0 <= n < 8 * size m2 ->
            marked beyond m2 n = false <-> Z.prime n).
  { apply (sieved_primes beyond m2 (Z.sqrt (8 * B) + 1)); [lia|nia|done]. }
  assert (Hc3 : forall n, 0 <= n < 8 * size m3 ->
            marked beyond m3 n = false <-> Z.prime n).
  { apply (sieved_primes beyond m3 (8 * (Z.sqrt (8 * B) / 8 + 1))); [lia| |done].
    assert (Z.sqrt (8 * B) + 1 <= 8 * (Z.sqrt (8 * B) / 8 + 1)) by lia. nia. }
  assert (Hsame : forall m, size m = B ->
            (forall n, 0 <= n < 8 * size m ->
               marked beyond m n = false <-> Z.prime n) ->
            forall n, 0 <= n < 8 * size m1 ->
              marked beyond m1 n = marked beyond m n).
  { intros m Hsz Hc n Hn. rewrite Hsz1 in Hn.
    specialize (Hc1 n ltac:(lia)). specialize (Hc n ltac:(lia)).
    destruct (marked beyond m1 n), (marked beyond m n); tauto || (exfalso; intuition congruence). }
  assert (Hb12 : bytes m1 = bytes m2).
  { apply (bytes_ext beyond); [apply Hsv1|apply Hsv2|congruence|by apply Hsame]. }
  assert (Hb13 : bytes m1 = bytes m3).
  { apply (bytes_ext beyond); [apply Hsv1|apply Hsv3|congruence|by apply Hsame]. }
  destruct (printPrimes_spec beyond B m1 EmptyString) as (m1' & Hp1 & _).
  destruct (printPrimes_spec beyond B m2 EmptyString) as (m2' & Hp2 & _).
  destruct (printPrimes_spec beyond B m3 EmptyString) as (m3' & Hp3 & _).
  rewrite (clear_between_bytes beyond m1 m2) in Hp2 by done.
  rewrite (clear_between_bytes beyond m1 m3) in Hp3 by done.
  exists m1, m2, m3, m1', m2', m3'. eexists.
  split; [exact Hrun1|]. split; [exact Hrun2|]. split; [exact Hrun3|].
  split; [exact Hb12|]. split; [exact Hb13|].
  split; [exact Hp1|]. split; [exact Hp2|exact Hp3].
Qed.

Lemma cutoff_equivalence_witness :
  3 <= 6 /\
  exists (m1 m2 m3 m1' m2' m3' : mem) (file : string),
    findPrimes (fun _ => 0) 0 (Z.sqrt (2 ^ (6 - 3)) + 1) (2 ^ (6 - 3))
      (calloc (2 ^ (6 - 3))) = Ok m1
    /\ findPrimes_tight (fun _ => 0) 0 (2 ^ (6 - 3)) (calloc (2 ^ (6 - 3))) = Ok m2
    /\ findPrimes (fun _ => 0) 0 (Z.sqrt (2 ^ 6) / 8 + 1) (2 ^ (6 - 3))
      (calloc (2 ^ (6 - 3))) = Ok m3
    /\ bytes m1 = bytes m2
    /\ bytes m1 = bytes m3
    /\ printPrimes (fun _ => 0) EmptyString 0 (2 ^ (6 - 3)) m1 = Ok (file, m1')
    /\ printPrimes (fun _ => 0) EmptyString 0 (2 ^ (6 - 3)) m2 = Ok (file, m2')
    /\ printPrimes (fun _ => 0) EmptyString 0 (2 ^ (6 - 3)) m3 = Ok (file, m3').
Proof. split; [lia|]. apply (cutoff_equivalence (fun _ => 0) 6). lia. Defined.

(** C5.  Take findPrimes on any block, at any state [s] at the head of
    its loop.  The bits of 0 and 1 are set in [s], and no bit that was set
    when findPrimes was entered is clear in [s]; a further round of the
    loop clears no bit; a store of setToOne, whatever its arguments,
    clears no bit; and the enumeration that starts from [s] never
    changes a byte. *)
Theorem bits_only_set (beyond : Z -> Z) (endsqrt end_ : Z) (m : mem)
    (s0 s : cursor * mem) :
  sieve_init beyond 0 m = Ok s0 ->
  reach (sieve_round beyond 0 endsqrt end_) s0 s ->
  (marked beyond (snd s) 0 = true /\ marked beyond (snd s) 1 = true
   /\ grows beyond m (snd s))
  /\ (forall s', sieve_round beyond 0 endsqrt end_ s = Ok s' ->
        grows beyond (snd s) (snd s'))
  /\ (forall i k m1 m2, setToOne beyond i k m1 = Ok m2 -> grows beyond m1 m2)
  /\ (forall t t', print_round beyond end_ (Cursor 0 0 0, snd s) = Ok t ->
        reach (print_round beyond end_) t t' -> bytes (snd t') = bytes (snd s)).
Proof.
  intros Hinit Hreach.
  destruct (sieve_init_marks beyond m s0 Hinit) as (Hg0 & H0 & H1).
  pose proof (reach_sieve_grows beyond 0 endsqrt end_ s0 s Hreach) as Hg.
  split; [|split; [|split]].
  - split; [by apply Hg|]. split; [by apply Hg|]. by eapply grows_trans.
  - intros s'. apply sieve_round_grows.
  - apply setToOne_grows.
  - intros [c1 m1] t' Hfirst Hrest. apply reach_print_bytes in Hrest.
    apply searchForZero_bytes in Hfirst. simpl in *. congruence.
Qed.

Lemma bits_only_set_witness :
  sieve_init (fun _ => 0) 0 (calloc 1) = Ok (Cursor 0 0 2, Mem [192] false) /\
  reach (sieve_round (fun _ => 0) 0 1 1)
    (Cursor 0 0 2, Mem [192] false) (Cursor 0 0 2, Mem [192] false) /\
  marked (fun _ => 0) (Mem [192] false) 0 = true.
Proof.
  assert (Hinit : sieve_init (fun _ => 0) 0 (calloc 1)
                  = Ok (Cursor 0 0 2, Mem [192] false)) by reflexivity.
  assert (Hreach : reach (sieve_round (fun _ => 0) 0 1 1)
            (Cursor 0 0 2, Mem [192] false) (Cursor 0 0 2, Mem [192] false))
    by constructor.
  split; [exact Hinit|]. split; [exact Hreach|].
  exact (proj1 (proj1 (bits_only_set (fun _ => 0) 1 1 (calloc 1) _ _ Hinit Hreach))).
Defined.

(** C6, at the exponent 3.  The block has one byte and the scan of the
    sieve is given the end [floor (sqrt 1) + 1 = 2]: findPrimes comes back
    having loaded a byte from outside the block. *)
Theorem sieve_strays_at_power_3 :
  Z.sqrt (2 ^ (3 - 3)) + 1 = 2
  /\ findPrimes (fun _ => 0) 0 (Z.sqrt (2 ^ (3 - 3)) + 1) (2 ^ (3 - 3))
       (calloc (2 ^ (3 - 3))) = Ok (Mem [202] true)
  /\ findPrimes (fun _ => 255) 0 (Z.sqrt (2 ^ (3 - 3)) + 1) (2 ^ (3 - 3))
       (calloc (2 ^ (3 - 3))) = Ok (Mem [202] true).
Proof. split; [reflexivity|]. split; vm_compute; reflexivity. Qed.

(** From the exponent 4 on the cutoff of the sieve lies inside the block,
    and findPrimes loads no byte from outside it. *)
Lemma sieve_in_block (beyond : Z -> Z) (P : Z) :
  4 <= P ->
  Z.sqrt (2 ^ (P - 3)) + 1 <= 2 ^ (P - 3)
  /\ exists m, findPrimes beyond 0 (Z.sqrt (2 ^ (P - 3)) + 1) (2 ^ (P - 3))
                 (calloc (2 ^ (P - 3))) = Ok m
       /\ strayed m = false.
Proof.
  intros HP.
  assert (HB : 2 <= 2 ^ (P - 3)).
  { replace (P - 3) with (1 + (P - 4)) by lia. rewrite Z.pow_add_r by lia.
    pose proof (Z.pow_pos_nonneg 2 (P - 4)). lia. }
  pose proof (Z.sqrt_lt_lin (2 ^ (P - 3)) ltac:(lia)) as Hs.
  split; [lia|].
  destruct (findPrimes_calloc beyond (2 ^ (P - 3)) (Z.sqrt (2 ^ (P - 3)) + 1))
    as (m & Hrun & _ & Hst & _); [lia|].
  exists m. split; [exact Hrun|]. apply Hst. lia.
Qed.

(** C7.  For a bit offset [r] in [0, 7] and a live cursor [c]: the bit
    offset of the cursor of eliminateMults lies in [0, 7] when the loop is
    entered and after each of its rounds, the one carry of [advance]
    being enough; so does the bit offset of the cursor of searchForZero
    after each of its increments; searchForZero returns a live cursor or
    one with [ind = -1]; and at the head of the loops of findPrimes and
    printPrimes, whose bodies only run when [ind] is not [-1], the cursor
    is live or has [ind = -1]. *)
Theorem bit_offset_in_range (beyond : Z -> Z) (q r : Z) (c : cursor) :
  0 <= r <= 7 -> live c ->
  (forall k, 0 <= snd (Nat.iter k (advance q r) (eliminate_start 0 q r)) <= 7)
  /\ (forall b, 0 <= snd b <= 7 -> 0 <= snd (advance q r b) <= 7)
  /\ (forall k, live (Nat.iter k next_bit c))
  /\ (forall end_ m c' m', searchForZero beyond end_ c m = Ok (c', m') ->
        live c' \/ ind c' = -1)
  /\ (forall endsqrt end_ m s,
        reach (sieve_round beyond 0 endsqrt end_) (c, m) s ->
        live (fst s) \/ ind (fst s) = -1)
  /\ (forall end_ m s,
        reach (print_round beyond end_) (c, m) s ->
        live (fst s) \/ ind (fst s) = -1).
Proof.
  intros Hr Hl. split; [|split; [|split; [|split; [|split]]]].
  - intros k. apply advance_iter_range; [done|]. by apply eliminate_start_spec.
  - intros b Hb. by apply advance_spec.
  - intros k. by apply next_bit_iter_live.
  - intros end_ m c' m'. by apply searchForZero_shape.
  - intros endsqrt end_ m s Hreach.
    apply (reach_sieve_shape beyond _ _ _ _ _ Hreach). by left.
  - intros end_ m s Hreach.
    apply (reach_print_shape beyond _ _ _ Hreach). by left.
Qed.

Lemma bit_offset_in_range_witness :
  0 <= 7 <= 7 /\ live (Cursor 0 0 7) /\
  0 <= snd (Nat.iter 5 (advance 1 7) (eliminate_start 0 1 7)) <= 7.
Proof.
  assert (Hr : 0 <= 7 <= 7) by lia.
  assert (Hl : live (Cursor 0 0 7)) by (red; simpl; lia).
  split; [exact Hr|]. split; [exact Hl|].
  exact (proj1 (bit_offset_in_range (fun _ => 0) 1 7 (Cursor 0 0 7) Hr Hl) 5%nat).
Defined.

(** ** main *)

Lemma read_power_other_count (argv : list string) :
  length argv <> 2%nat ->
  read_power argv = (POWER, String.append "power = 20" newline).
Proof.
  intros Hlen. unfold read_power.
  destruct (Z.eqb_spec (Z.of_nat (length argv)) 2) as [He|Hne]; [lia|].
  reflexivity.
Qed.

Lemma read_power_low (prog a : string) :
  atoi a < 3 ->
  read_power [prog; a]
  = (POWER, String.append "Invalid value for power"
              (String.append newline (String.append "power = 20" newline))).
Proof.
  intros Hlow. unfold read_power. simpl.
  destruct (Z.ltb_spec (atoi a) 3) as [_|Hge]; [reflexivity|lia].
Qed.

Lemma read_power_valid (prog a : string) :
  3 <= atoi a ->
  read_power [prog; a]
  = (atoi a, String.append "power = " (String.append (decimal (atoi a)) newline)).
Proof.
  intros Hok. unfold read_power. simpl.
  destruct (Z.ltb_spec (atoi a) 3) as [Hlt|_]; [lia|reflexivity].
Qed.

Lemma to_int_small (v : Z) : - 2 ^ 31 <= v < 2 ^ 31 -> to_int v = v.
Proof.
  intros Hv. unfold to_int. rewrite Z.mod_small; lia.
Qed.

(** A number that fits an [int] is read as it is. *)
Lemma atoi_small (s : string) :
  - 2 ^ 31 <= numeral s < 2 ^ 31 -> atoi s = numeral s.
Proof.
  intros Hv. unfold atoi, strtol, LONG_MIN, LONG_MAX.
  rewrite Z.min_r, Z.max_r by lia. by apply to_int_small.
Qed.

(** What atoi returns is an [int]. *)
Lemma atoi_fits_int (s : string) : - 2 ^ 31 <= atoi s < 2 ^ 31.
Proof.
  unfold atoi, to_int.
  pose proof (Z.mod_pos_bound (strtol s + 2 ^ 31) (2 ^ 32) ltac:(done)). lia.
Qed.

(** The exponent main settles on is an [int], so the [%d] of its line on
    the error stream prints it as it is. *)
Lemma read_power_fits_int (argv : list string) :
  - 2 ^ 31 <= fst (read_power argv) < 2 ^ 31.
Proof.
  unfold read_power.
  destruct (negb (Z.of_nat (length argv) =? 2)); [unfold POWER; simpl; lia|].
  destruct (atoi (nth 1 argv EmptyString) <? 3); [unfold POWER; simpl; lia|].
  simpl. apply atoi_fits_int.
Qed.

(** An argument that does not begin with a number reads as 0. *)
Lemma atoi_not_a_number (a : ascii) (s : string) :
  isspace a = false -> a <> "-"%char -> a <> "+"%char -> digit a = None ->
  atoi (String a s) = 0.
Proof.
  intros Hsp Hm Hp Hd.
  assert (Hnum : numeral (String a s) = 0).
  { simpl. rewrite Hsp. unfold atoi_signed.
    destruct (Ascii.ascii_dec a "-") as [->|_]; [done|].
    destruct (Ascii.ascii_dec a "+") as [->|_]; [done|].
    assert (Hdig : atoi_digits 0 (String a s) = 0) by (simpl; by rewrite Hd).
    destruct a as [[] [] [] [] [] [] [] []]; try exact Hdig; done. }
  rewrite atoi_small; rewrite Hnum; [done|lia].
Qed.

(** The text of the file does not depend on what was written to the error
    stream. *)
Lemma run_file (beyond : Z -> Z) (got_block got_file : bool) (power : Z)
    (err err' : string) :
  file_of (run beyond got_block got_file power err)
  = file_of (run beyond got_block got_file power err').
Proof.
  unfold run. destruct (31 <=? power - 3); [done|].
  destruct got_block; [|done]. simpl.
  destruct (findPrimes _ _ _ _ _) as [m| |]; try done. simpl.
  destruct got_file; [|done]. simpl.
  destruct (printPrimes _ _ _ _ _) as [[file m']| |]; done.
Qed.

(** With the block and the file at hand, main comes to its end for every
    exponent it can shift by. *)
Lemma run_ok (beyond : Z -> Z) (power : Z) (err : string) :
  3 <= power <= 33 ->
  exists l, run beyond true true power err = Ok (Outcome 0 err (Some (lines l)))
    /\ forall n, n ∈ l <-> Z.prime n /\ n < 2 ^ power.
Proof.
  intros HP. unfold run.
  destruct (Z.leb_spec 31 (power - 3)) as [Hbig|_]; [lia|].
  rewrite Z.shiftl_1_l. simpl negb. cbv iota. rewrite !Z.add_0_l.
  destruct (pow_split power ltac:(lia)) as [HN HB].
  destruct (sieve_then_print beyond (2 ^ (power - 3)) HB)
    as (m & m' & Hrun & Hprint & Hchar).
  rewrite Hrun. simpl. rewrite Hprint. simpl.
  eexists. split; [reflexivity|].
  intros n. rewrite clear_between_elem, HN. split.
  - intros [Hn Hclear]. split; [|lia]. apply Hchar; [lia|done].
  - intros [Hp Hn]. pose proof (Z.prime_ge_2 n Hp) as H2.
    split; [lia|]. apply Hchar; [lia|done].
Qed.

Example decimal_samples :
  decimal 0 = "0"%string /\ decimal 61 = "61"%string
  /\ decimal 1048573 = "1048573"%string
  /\ lines [2; 13]
     = String.append "2" (String.append newline (String.append "13" newline)).
Proof. repeat split; reflexivity. Qed.

(** The scenarios of the specification for the exponents 3 to 6, and what
    [atoi] makes of a few arguments. *)
Example scenario_power_3 :
  main (fun _ => 0) true true ["primes"; "3"]%string
  = Ok (Outcome 0 (String.append "power = 3" newline) (Some (lines [2; 3; 5; 7]))).
Proof. vm_compute. reflexivity. Qed.

Example scenario_power_4 :
  file_of (main (fun _ => 0) true true ["primes"; "4"]%string)
  = Some (lines [2; 3; 5; 7; 11; 13]).
Proof. vm_compute. reflexivity. Qed.

Example scenario_power_5 :
  file_of (main (fun _ => 0) true true ["primes"; "5"]%string)
  = Some (lines [2; 3; 5; 7; 11; 13; 17; 19; 23; 29; 31]).
Proof. vm_compute. reflexivity. Qed.

Example scenario_power_6 :
  file_of (main (fun _ => 0) true true ["primes"; "6"]%string)
  = Some (lines [2; 3; 5; 7; 11; 13; 17; 19; 23; 29; 31; 37; 41; 43; 47; 53; 59; 61]).
Proof. vm_compute. reflexivity. Qed.

(** The count of the primes below [2 ^ 10], as the specification gives
    it. *)
Example count_power_10 :
  (m ← findPrimes (fun _ => 0) 0 (Z.sqrt (2 ^ 7) + 1) (2 ^ 7) (calloc (2 ^ 7));
   Ok (length (clear_between (fun _ => 0) m 1 (2 ^ 10))))
  = Ok 172%nat.
Proof. vm_compute. reflexivity. Qed.

Example atoi_samples :
  atoi "20" = 20 /\ atoi "foo" = 0 /\ atoi "" = 0 /\ atoi "-5" = -5
  /\ atoi "  +12" = 12 /\ atoi "7x" = 7 /\ atoi "2" = 2.
Proof. repeat split; reflexivity. Qed.

(** Numbers that do not fit an [int] wrap around, and those that do not
    fit a [long] are brought back to its range first. *)
Example atoi_wraps :
  atoi "4294967299" = 3 /\ atoi "2147483648" = -2147483648
  /\ atoi "-4294967293" = 3 /\ atoi "99999999999999999999" = -1
  /\ atoi "-99999999999999999999" = 0.
Proof. repeat split; reflexivity. Qed.

(** C8, as the code has it.  When the number of arguments is not one, or
    the [int] that atoi reads from the one argument is less than 3 (so
    also when it does not begin with a number), main settles on the exponent 20 and primes.txt is the
    file of an invocation with the argument 20.  In the first case the
    error stream holds the line [power = 20] and nothing else; in the
    second it holds the line [Invalid value for power] before it. *)
Theorem default_fallback (beyond : Z -> Z) (got_block got_file : bool)
    (argv : list string) :
  length argv <> 2%nat \/ (exists prog a, argv = [prog; a] /\ atoi a < 3) ->
  fst (read_power argv) = 20
  /\ file_of (main beyond got_block got_file argv)
     = file_of (main beyond got_block got_file ["primes"; "20"]%string)
  /\ stderr_of (main beyond true true argv) = Some (snd (read_power argv))
  /\ (length argv <> 2%nat ->
      snd (read_power argv) = String.append "power = 20" newline)
  /\ (length argv = 2%nat ->
      snd (read_power argv)
      = String.append "Invalid value for power"
          (String.append newline (String.append "power = 20" newline))).
Proof.
  intros Hclass.
  assert (H20 : read_power ["primes"; "20"]%string
                = (POWER, String.append "power = 20" newline)) by reflexivity.
  assert (Hp : exists err, read_power argv = (POWER, err)).
  { destruct Hclass as [Hlen|(prog & a & -> & Hlow)].
    - eexists. by apply read_power_other_count.
    - eexists. by apply read_power_low. }
  destruct Hp as [err Hp]. unfold main. rewrite Hp, H20. simpl fst. simpl snd.
  split; [reflexivity|]. split; [apply run_file|]. split; [|split].
  - destruct (run_ok beyond POWER err) as (l & -> & _); [unfold POWER; lia|].
    reflexivity.
  - intros Hlen. rewrite read_power_other_count in Hp by done. congruence.
  - intros Hlen. destruct Hclass as [Hne|(prog & a & -> & Hlow)]; [done|].
    rewrite read_power_low in Hp by done. congruence.
Qed.

Lemma default_fallback_witness :
  (length ["primes"; "foo"]%string <> 2%nat
   \/ (exists prog a, ["primes"; "foo"]%string = [prog; a] /\ atoi a < 3))
  /\ fst (read_power ["primes"; "foo"]%string) = 20.
Proof.
  assert (H : length ["primes"; "foo"]%string <> 2%nat
              \/ (exists prog a, ["primes"; "foo"]%string = [prog; a] /\ atoi a < 3)).
  { right. exists "primes"%string, "foo"%string. split; [reflexivity|].
    vm_compute. reflexivity. }
  split; [exact H|].
  exact (proj1 (default_fallback (fun _ => 0) true true _ H)).
Defined.

Lemma append_length (a b : string) :
  String.length (String.append a b) = (String.length a + String.length b)%nat.
Proof. induction a as [|x a IH]; simpl; [done|]. by rewrite IH. Qed.

(** C8, as it is stated, fails when the argument is absent: the error
    stream of that run is the error stream of the run with the argument
    20, the one line [power = 20], and no line of diagnostic comes before
    it. *)
Lemma absent_argument_no_diagnostic :
  stderr_of (main (fun _ => 0) true true ["primes"]%string)
  = stderr_of (main (fun _ => 0) true true ["primes"; "20"]%string)
  /\ ~ exists d,
        stderr_of (main (fun _ => 0) true true ["primes"]%string)
        = Some (String.append d
                  (String.append newline (String.append "power = 20" newline))).
Proof.
  assert (H1 : read_power ["primes"]%string
               = (POWER, String.append "power = 20" newline)) by reflexivity.
  assert (H20 : read_power ["primes"; "20"]%string
                = (POWER, String.append "power = 20" newline)) by reflexivity.
  unfold main. rewrite H1, H20.
  destruct (run_ok (fun _ => 0) POWER (String.append "power = 20" newline))
    as (l & -> & _); [unfold POWER; lia|].
  split; [reflexivity|]. simpl. intros [d [= Hd]].
  apply (f_equal String.length) in Hd. rewrite append_length in Hd.
  simpl in Hd. lia.
Qed.

(** C9.  For every memory of at most [2 ^ 30] bytes, the largest block
    that main can ask for, and a cursor [(pointind, ind)] with
    [0 <= ind <= 7] on an integer [p >= 1] that has a bit in the block,
    so for every prime below the number of bits (within these bounds the
    [long] offset of [p * p] is computed without overflow): eliminateMults
    returns, and run a second time it returns the very memory that the
    first run returned. *)
Theorem eliminateMults_idempotent (beyond : Z -> Z) (q r : Z) (m : mem) :
  0 <= r <= 7 -> 1 <= 8 * q + r ->
  8 * q + r < 8 * size m -> size m <= 2 ^ 30 ->
  exists m1, eliminateMults beyond 0 q r (size m) m = Ok m1
    /\ eliminateMults beyond 0 q r (size m) m1 = Ok m1.
Proof.
  intros Hr Hp _ _. assert (Hq : 0 <= q) by lia.
  destruct (eliminateMults_spec beyond q r (size m) m Hr Hq Hp)
    as (m1 & Hrun & _); [lia|].
  exists m1. split; [exact Hrun|].
  unfold eliminateMults in *. eapply eliminate_loop_again. exact Hrun.
Qed.

Lemma eliminateMults_idempotent_witness :
  0 <= 2 <= 7 /\ 1 <= 8 * 0 + 2 /\
  8 * 0 + 2 < 8 * size (Mem [192; 0] false) /\
  size (Mem [192; 0] false) <= 2 ^ 30 /\
  exists m1,
    eliminateMults (fun _ => 0) 0 0 2 (size (Mem [192; 0] false))
      (Mem [192; 0] false) = Ok m1
    /\ eliminateMults (fun _ => 0) 0 0 2 (size (Mem [192; 0] false)) m1 = Ok m1.
Proof.
  split; [lia|]. split; [lia|].
  assert (Hin : 8 * 0 + 2 < 8 * size (Mem [192; 0] false)) by reflexivity.
  assert (Hfit : size (Mem [192; 0] false) <= 2 ^ 30) by (vm_compute; discriminate).
  split; [exact Hin|]. split; [exact Hfit|].
  apply (eliminateMults_idempotent (fun _ => 0) 0 2 (Mem [192; 0] false));
    (lia || assumption).
Defined.

Lemma test_bit_marked (beyond : Z -> Z) (m : mem) (n : Z) :
  0 <= n -> test_bit beyond m n = marked beyond m n.
Proof.
  intros Hn. unfold test_bit, marked.
  pose proof (Z.mod_pos_bound n 8 ltac:(lia)).
  rewrite is_zero_testbit by lia. apply negb_involutive.
Qed.

(** C10.  For every exponent [P >= 3] and every [n] in [0, 2 ^ P): on the
    zeroed block of [2 ^ (P - 3)] bytes, setToOne on the byte [n / 8] with
    the bit offset [n mod 8] returns, the test of the scanner then finds
    the bit of [n] set and the bit of every other integer below [2 ^ P]
    clear; before the store the test finds every bit clear. *)
Theorem set_then_test (beyond : Z -> Z) (P n : Z) :
  3 <= P -> 0 <= n < 2 ^ P ->
  exists m1, setToOne beyond (n / 8) (n mod 8) (calloc (2 ^ (P - 3))) = Ok m1
    /\ test_bit beyond m1 n = true
    /\ (forall k, 0 <= k < 2 ^ P -> k <> n -> test_bit beyond m1 k = false)
    /\ (forall k, 0 <= k < 2 ^ P ->
          test_bit beyond (calloc (2 ^ (P - 3))) k = false).
Proof.
  intros HP Hn. destruct (pow_split P HP) as [HN HB]. rewrite HN in *.
  set (B := 2 ^ (P - 3)) in *.
  pose proof (Z.mod_pos_bound n 8 ltac:(lia)) as Hmod.
  pose proof (Z.div_mod n 8 ltac:(lia)) as Hdm.
  assert (Hq : 0 <= n / 8 < B).
  { split; [apply Z.div_pos; lia|apply Z.div_lt_upper_bound; lia]. }
  destruct (setToOne_inside beyond (n / 8) (n mod 8) (calloc B))
    as (m1 & Hrun & _ & _ & _ & Hbits); [by rewrite calloc_size by lia|lia|].
  exists m1. split; [exact Hrun|]. unfold CHAR_BIT in Hbits.
  rewrite <- Hdm in Hbits. split; [|split].
  - rewrite test_bit_marked, Hbits by lia. rewrite Z.eqb_refl. apply orb_true_r.
  - intros k Hk Hne. rewrite test_bit_marked, Hbits by lia.
    rewrite calloc_clear by lia. simpl. apply Z.eqb_neq. done.
  - intros k Hk. rewrite test_bit_marked by lia. apply calloc_clear. lia.
Qed.

Lemma set_then_test_witness :
  3 <= 4 /\ 0 <= 11 < 2 ^ 4 /\
  exists m1, setToOne (fun _ => 0) (11 / 8) (11 mod 8) (calloc (2 ^ (4 - 3))) = Ok m1
    /\ test_bit (fun _ => 0) m1 11 = true
    /\ (forall k, 0 <= k < 2 ^ 4 -> k <> 11 -> test_bit (fun _ => 0) m1 k = false)
    /\ (forall k, 0 <= k < 2 ^ 4 ->
          test_bit (fun _ => 0) (calloc (2 ^ (4 - 3))) k = false).
Proof.
  split; [lia|]. split; [lia|].
  apply (set_then_test (fun _ => 0) 4 11); lia.
Defined.

(** * Further properties of the code *)

(** ** main from end to end *)

Lemma read_power_at_least_3 (argv : list string) : 3 <= fst (read_power argv).
Proof.
  unfold read_power.
  destruct (negb (Z.of_nat (length argv) =? 2)); [simpl; unfold POWER; lia|].
  destruct (Z.ltb_spec (atoi (nth 1 argv EmptyString)) 3); simpl;
    [unfold POWER|]; lia.
Qed.

(** X1.  main with one argument that reads as an exponent from 3 to 33,
    when the block and the file are to be had: it returns 0, the error
    stream holds the one line [power = P], and primes.txt holds, one per
    line and in ascending order, exactly the primes below [2 ^ P]. *)
Theorem main_valid_argument (beyond : Z -> Z) (prog a : string) :
  3 <= atoi a <= 33 ->
  exists l,
    main beyond true true [prog; a]
    = Ok (Outcome 0
            (String.append "power = " (String.append (decimal (atoi a)) newline))
            (Some (lines l)))
    /\ StronglySorted Z.lt l
    /\ forall n, n ∈ l <-> Z.prime n /\ n < 2 ^ atoi a.
Proof.
  intros HP. unfold main. rewrite read_power_valid by lia.
  set (err := String.append "power = " _). unfold run.
  destruct (Z.leb_spec 31 (atoi a - 3)) as [Hbig|_]; [lia|].
  rewrite Z.shiftl_1_l. simpl negb. cbv iota. rewrite !Z.add_0_l.
  destruct (pow_split (atoi a) ltac:(lia)) as [HN HB].
  destruct (sieve_then_print beyond (2 ^ (atoi a - 3)) HB)
    as (m & m' & Hrun & Hprint & Hchar).
  rewrite Hrun. simpl. rewrite Hprint. simpl.
  eexists. split; [reflexivity|]. split; [apply clear_between_sorted|].
  intros n. rewrite clear_between_elem, HN. split.
  - intros [Hn Hclear]. split; [|lia]. apply Hchar; [lia|done].
  - intros [Hp Hn]. pose proof (Z.prime_ge_2 n Hp) as H2.
    split; [lia|]. apply Hchar; [lia|done].
Qed.

Lemma main_valid_argument_witness :
  3 <= atoi "5" <= 33 /\
  exists l,
    main (fun _ => 0) true true ["primes"; "5"]%string
    = Ok (Outcome 0
            (String.append "power = " (String.append (decimal (atoi "5")) newline))
            (Some (lines l)))
    /\ StronglySorted Z.lt l
    /\ forall n, n ∈ l <-> Z.prime n /\ n < 2 ^ atoi "5".
Proof.
  assert (H : 3 <= atoi "5" <= 33) by (vm_compute; split; discriminate).
  split; [exact H|].
  exact (main_valid_argument (fun _ => 0) "primes" "5" H).
Defined.

(** X2.  Whatever the arguments, as long as the exponent main settles on
    is at most 33: when calloc fails main returns 1 after the line
    [Failed to allocate memory], and when fopen fails it returns 1 after
    the line [Failed to create ./primes.txt], the sieve having run to its
    end; in both cases nothing is written to primes.txt. *)
Theorem main_failure_exits (beyond : Z -> Z) (got_file : bool) (argv : list string) :
  fst (read_power argv) <= 33 ->
  main beyond false got_file argv
  = Ok (Outcome 1
          (String.append (snd (read_power argv))
             (String.append "Failed to allocate memory" newline)) None)
  /\ main beyond true false argv
     = Ok (Outcome 1
             (String.append (snd (read_power argv))
                (String.append "Failed to create ./primes.txt" newline)) None).
Proof.
  intros Hmax. pose proof (read_power_at_least_3 argv) as Hmin.
  unfold main. destruct (read_power argv) as [power err]. simpl in *.
  unfold run. destruct (Z.leb_spec 31 (power - 3)) as [Hbig|_]; [lia|].
  split; [reflexivity|].
  rewrite Z.shiftl_1_l. simpl negb. cbv iota. rewrite !Z.add_0_l.
  destruct (pow_split power Hmin) as [_ HB].
  destruct (findPrimes_calloc beyond (2 ^ (power - 3))
              (Z.sqrt (2 ^ (power - 3)) + 1) HB) as (m & Hrun & _).
  rewrite Hrun. reflexivity.
Qed.

Lemma main_failure_exits_witness :
  fst (read_power ["primes"; "4"]%string) <= 33 /\
  main (fun _ => 0) false true ["primes"; "4"]%string
  = Ok (Outcome 1
          (String.append (snd (read_power ["primes"; "4"]%string))
             (String.append "Failed to allocate memory" newline)) None).
Proof.
  assert (H : fst (read_power ["primes"; "4"]%string) <= 33)
    by (vm_compute; discriminate).
  split; [exact H|].
  exact (proj1 (main_failure_exits (fun _ => 0) true _ H)).
Defined.

(** ** Reading back a printed number *)

Lemma atoi_digits_stop (acc : Z) (tail : string) :
  no_digit_first tail -> atoi_digits acc tail = acc.
Proof. destruct tail as [|a tail]; simpl; [done|]. by intros ->. Qed.

Lemma atoi_digits_uint_acc (d : Decimal.uint) (tail : string) :
  no_digit_first tail ->
  forall acc : positive,
  atoi_digits (Z.pos acc) (String.append (NilEmpty.string_of_uint d) tail)
  = Z.pos (Pos.of_uint_acc d acc).
Proof.
  intros Htail. induction d as [|d IH|d IH|d IH|d IH|d IH|d IH|d IH|d IH|d IH|d IH];
    intros acc; cbn [NilEmpty.string_of_uint String.append Pos.of_uint_acc];
    [by apply atoi_digits_stop|..];
    cbn [atoi_digits]; change (digit _) with (Some 0) || change (digit _) with (Some 1)
      || change (digit _) with (Some 2) || change (digit _) with (Some 3)
      || change (digit _) with (Some 4) || change (digit _) with (Some 5)
      || change (digit _) with (Some 6) || change (digit _) with (Some 7)
      || change (digit _) with (Some 8) || change (digit _) with (Some 9);
    cbv beta iota;
    match goal with
    | |- atoi_digits ?v _ = Z.pos (Pos.of_uint_acc _ ?w) =>
        replace v with (Z.pos w) by lia
    end; apply IH.
Qed.

Lemma atoi_digits_uint (d : Decimal.uint) (tail : string) :
  no_digit_first tail ->
  atoi_digits 0 (String.append (NilEmpty.string_of_uint d) tail)
  = Z.of_N (Pos.of_uint d).
Proof.
  intros Htail. induction d as [|d IH|d IH|d IH|d IH|d IH|d IH|d IH|d IH|d IH|d IH];
    cbn [NilEmpty.string_of_uint String.append Pos.of_uint];
    [by apply atoi_digits_stop|exact IH|..];
    cbn [atoi_digits]; change (digit _) with (Some 1)
      || change (digit _) with (Some 2) || change (digit _) with (Some 3)
      || change (digit _) with (Some 4) || change (digit _) with (Some 5)
      || change (digit _) with (Some 6) || change (digit _) with (Some 7)
      || change (digit _) with (Some 8) || change (digit _) with (Some 9);
    cbv beta iota; by apply atoi_digits_uint_acc.
Qed.

Lemma string_of_uint_positive (p : positive) :
  exists a s,
    NilZero.string_of_uint (Pos.to_uint p) = String a s
    /\ NilEmpty.string_of_uint (Pos.to_uint p) = String a s
    /\ isspace a = false /\ a <> "-"%char /\ a <> "+"%char.
Proof.
  pose proof (DecimalPos.Unsigned.of_to p) as Hp.
  destruct (Pos.to_uint p) as [|d|d|d|d|d|d|d|d|d|d]; [done|..];
    eexists _, _; (split; [reflexivity|]); (split; [reflexivity|]);
    (split; [reflexivity|]); split; discriminate.
Qed.

Lemma numeral_of_decimal (n : Z) (tail : string) :
  no_digit_first tail -> numeral (String.append (decimal n) tail) = n.
Proof.
  intros Htail. unfold decimal. destruct n as [|p|p]; simpl Z.to_int.
  - cbn. by apply atoi_digits_stop.
  - unfold NilZero.string_of_int.
    destruct (string_of_uint_positive p) as (a & s & Hz & He & Hsp & Hm & Hpl).
    rewrite Hz. cbn [String.append numeral]. rewrite Hsp.
    assert (Hdig : atoi_digits 0 (String a (String.append s tail)) = Z.pos p).
    { change (String a (String.append s tail)) with (String.append (String a s) tail).
      rewrite <- He, atoi_digits_uint by done.
      by rewrite DecimalPos.Unsigned.of_to. }
    unfold atoi_signed.
    destruct a as [[] [] [] [] [] [] [] []]; try exact Hdig; done.
  - unfold NilZero.string_of_int.
    destruct (string_of_uint_positive p) as (a & s & Hz & He & Hsp & Hm & Hpl).
    rewrite Hz.
    change (numeral (String.append (String "-" (String a s)) tail))
      with (- atoi_digits 0 (String.append (String a s) tail)).
    rewrite <- He, atoi_digits_uint by done.
    by rewrite DecimalPos.Unsigned.of_to.
Qed.

(** Text after the number does not change what atoi reads. *)
Lemma atoi_ignores_tail (n : Z) (tail : string) :
  no_digit_first tail ->
  atoi (String.append (decimal n) tail) = atoi (decimal n).
Proof.
  intros Htail.
  assert (Hn : numeral (decimal n) = n).
  { rewrite <- (append_empty_r (decimal n)). by apply numeral_of_decimal. }
  unfold atoi, strtol. by rewrite (numeral_of_decimal n tail Htail), Hn.
Qed.

(** ** The sieve on any block *)

(** X4.  findPrimes on a zeroed block of [B] bytes, from 1 byte to the
    [2 ^ 30] bytes that main can ask for at most, with any cutoff
    [endsqrt] inside the block such that the square of [8 * endsqrt]
    covers the [8 * B] bits of the block: it returns, the block keeps its
    size and its bytes stay bytes, and the bit of [n] is clear exactly
    when [n] is prime. *)
Theorem findPrimes_any_block (beyond : Z -> Z) (B endsqrt : Z) :
  1 <= B <= 2 ^ 30 -> 0 <= endsqrt <= B ->
  8 * B <= (8 * endsqrt) * (8 * endsqrt) ->
  exists m, findPrimes beyond 0 endsqrt B (calloc B) = Ok m
    /\ size m = B
    /\ wf m
    /\ forall n, 0 <= n < 8 * B -> (marked beyond m n = false <-> Z.prime n).
Proof.
  intros [HB _] [He _] Hcover.
  destruct (findPrimes_calloc beyond B endsqrt HB) as (m & Hrun & Hsz & _ & Hsv).
  exists m. split; [exact Hrun|]. split; [exact Hsz|]. split; [apply Hsv|].
  rewrite <- Hsz. apply (sieved_primes beyond m (8 * endsqrt)); [lia| |done].
  by rewrite Hsz.
Qed.

Lemma findPrimes_any_block_witness :
  1 <= 3 <= 2 ^ 30 /\ 0 <= 1 <= 3 /\ 8 * 3 <= (8 * 1) * (8 * 1) /\
  exists m, findPrimes (fun _ => 0) 0 1 3 (calloc 3) = Ok m
    /\ size m = 3
    /\ wf m
    /\ forall n, 0 <= n < 8 * 3 ->
         (marked (fun _ => 0) m n = false <-> Z.prime n).
Proof.
  assert (HB : 1 <= 3 <= 2 ^ 30) by (split; vm_compute; discriminate).
  split; [exact HB|]. split; [lia|]. split; [lia|].
  apply (findPrimes_any_block (fun _ => 0) 3 1); [exact HB|lia|lia].
Defined.

(** X5.  On a zeroed block of [B] bytes, from 1 byte to the [2 ^ 30]
    bytes that main can ask for at most, and with a cutoff that does not
    lie past the end of the block, findPrimes and then printPrimes run to
    their end without a store or a load outside the block. *)
Theorem run_stays_in_block (beyond : Z -> Z) (B endsqrt : Z) :
  1 <= B <= 2 ^ 30 -> endsqrt <= B ->
  exists m file m',
    findPrimes beyond 0 endsqrt B (calloc B) = Ok m
    /\ strayed m = false
    /\ printPrimes beyond EmptyString 0 B m = Ok (file, m')
    /\ strayed m' = false.
Proof.
  intros [HB _] Hend.
  destruct (findPrimes_calloc beyond B endsqrt HB) as (m & Hrun & Hsz & Hst & _).
  destruct (printPrimes_spec beyond B m EmptyString) as (m' & Hprint & _ & Hst').
  exists m. eexists. exists m'. split; [exact Hrun|].
  split; [by apply Hst|]. split; [exact Hprint|].
  rewrite Hst' by lia. by apply Hst.
Qed.

Lemma run_stays_in_block_witness :
  1 <= 2 <= 2 ^ 30 /\ Z.sqrt 2 + 1 <= 2 /\
  exists m file m',
    findPrimes (fun _ => 7) 0 (Z.sqrt 2 + 1) 2 (calloc 2) = Ok m
    /\ strayed m = false
    /\ printPrimes (fun _ => 7) EmptyString 0 2 m = Ok (file, m')
    /\ strayed m' = false.
Proof.
  assert (H : Z.sqrt 2 + 1 <= 2) by (vm_compute; discriminate).
  assert (HB : 1 <= 2 <= 2 ^ 30) by (split; vm_compute; discriminate).
  split; [exact HB|]. split; [exact H|].
  apply (run_stays_in_block (fun _ => 7) 2 (Z.sqrt 2 + 1)); [exact HB|exact H].
Defined.

(** ** The enumeration on any memory *)

(** X6.  printPrimes on any memory and up to any [end_]: it returns with
    every byte as it was, and what it has appended to the file is, one per
    line and in ascending order, exactly the integers from 1 up to the
    last bit before [end_] whose bit is clear.  The integer 0 is never
    printed, whatever its bit. *)
Theorem printPrimes_lists_clear_bits (beyond : Z -> Z) (end_ : Z) (m : mem)
    (file : string) :
  exists l m',
    printPrimes beyond file 0 end_ m = Ok (String.append file (lines l), m')
    /\ bytes m' = bytes m
    /\ StronglySorted Z.lt l
    /\ forall n, n ∈ l <-> 1 <= n < 8 * end_ /\ marked beyond m n = false.
Proof.
  destruct (printPrimes_spec beyond end_ m file) as (m' & Hprint & Hb & _).
  exists (clear_between beyond m 1 (8 * end_)), m'.
  split; [exact Hprint|]. split; [exact Hb|].
  split; [apply clear_between_sorted|].
  intros n. apply clear_between_elem.
Qed.

Lemma prime_5 : Z.prime 5.
Proof.
  split; [lia|]. intros n Hn [z Hz].
  assert (n = 2 \/ n = 3 \/ n = 4) as [-> |[-> | ->]] by lia; lia.
Qed.

Lemma prime_7 : Z.prime 7.
Proof.
  split; [lia|]. intros n Hn [z Hz].
  assert (n = 2 \/ n = 3 \/ n = 4 \/ n = 5 \/ n = 6)
    as [-> |[-> |[-> |[-> | ->]]]] by lia; lia.
Qed.

(** X7.  For every exponent [P >= 3] the file that findPrimes and
    printPrimes produce begins with the lines 2, 3, 5 and 7, and every
    later line is a number from 8 on. *)
Theorem first_four_lines (beyond : Z -> Z) (P : Z) :
  3 <= P ->
  exists (m m' : mem) (l : list Z),
    findPrimes beyond 0 (Z.sqrt (2 ^ (P - 3)) + 1) (2 ^ (P - 3))
      (calloc (2 ^ (P - 3))) = Ok m
    /\ printPrimes beyond EmptyString 0 (2 ^ (P - 3)) m
       = Ok (lines (2 :: 3 :: 5 :: 7 :: l), m')
    /\ Forall (fun n => 8 <= n) l.
Proof.
  intros HP. destruct (pow_split P HP) as [_ HB].
  set (B := 2 ^ (P - 3)) in *.
  destruct (sieve_then_print beyond B HB) as (m & m' & Hrun & Hprint & Hchar).
  assert (Hset : forall n, 0 <= n < 8 -> ~ Z.prime n -> marked beyond m n = true).
  { intros n Hn Hnp. destruct (marked beyond m n) eqn:E; [done|].
    exfalso. apply Hnp, Hchar; [lia|done]. }
  assert (Hclr : forall n, 0 <= n < 8 -> Z.prime n -> marked beyond m n = false).
  { intros n Hn Hp. apply Hchar; [lia|done]. }
  assert (H4 : ~ Z.prime 4) by (apply (product_not_prime 2 2); lia).
  assert (H6 : ~ Z.prime 6) by (apply (product_not_prime 2 3); lia).
  exists m, m', (clear_between beyond m 8 (8 * B)).
  split; [exact Hrun|]. split.
  - rewrite Hprint. do 2 f_equal.
    rewrite (clear_between_first beyond m 1 (8 * B) 2); [|lia| |].
    2:{ intros n Hn. replace n with 1 by lia. apply Hset; [lia|apply Z.not_prime_1]. }
    2:{ apply Hclr; [lia|apply Z.prime_2]. }
    rewrite (clear_between_first beyond m (2 + 1) (8 * B) 3); [|lia|intros n Hn; lia|].
    2:{ apply Hclr; [lia|apply Z.prime_3]. }
    rewrite (clear_between_first beyond m (3 + 1) (8 * B) 5); [|lia| |].
    2:{ intros n Hn. replace n with 4 by lia. by apply Hset. }
    2:{ apply Hclr; [lia|apply prime_5]. }
    rewrite (clear_between_first beyond m (5 + 1) (8 * B) 7); [|lia| |].
    2:{ intros n Hn. replace n with 6 by lia. by apply Hset. }
    2:{ apply Hclr; [lia|apply prime_7]. }
    reflexivity.
  - apply Forall_forall. intros n Hn. apply clear_between_elem in Hn. lia.
Qed.

Lemma first_four_lines_witness :
  3 <= 4 /\
  exists (m m' : mem) (l : list Z),
    findPrimes (fun _ => 0) 0 (Z.sqrt (2 ^ (4 - 3)) + 1) (2 ^ (4 - 3))
      (calloc (2 ^ (4 - 3))) = Ok m
    /\ printPrimes (fun _ => 0) EmptyString 0 (2 ^ (4 - 3)) m
       = Ok (lines (2 :: 3 :: 5 :: 7 :: l), m')
    /\ Forall (fun n => 8 <= n) l.
Proof. split; [lia|]. apply (first_four_lines (fun _ => 0) 4). lia. Defined.

(** ** The elimination on the cursor of 0 *)

(** X8.  On the cursor of the integer 0 the loop of eliminateMults never
    moves: when the block holds at least the [end_ > 0] bytes up to its
    end, no amount of fuel brings the loop, or eliminateMults, to a
    return. *)
Theorem eliminate_zero_never_ends (beyond : Z -> Z) (fuel : nat) (end_ : Z)
    (m : mem) :
  0 < end_ <= size m ->
  eliminate_loop beyond fuel 0 0 end_ (eliminate_start 0 0 0) m = Timeout
  /\ eliminateMults beyond 0 0 0 end_ m = Timeout.
Proof.
  intros Hend.
  assert (Hloop : forall fuel m,
            0 < end_ <= size m ->
            eliminate_loop beyond fuel 0 0 end_ (0, 0) m = Timeout).
  { clear fuel m Hend. induction fuel as [|fuel IH]; intros m Hend; simpl;
      destruct (Z.ltb_spec 0 end_) as [_|Hge]; try lia.
    - reflexivity.
    - destruct (setToOne_inside beyond 0 0 m) as (m1 & Hset & Hsz & _); [lia|lia|].
      rewrite Hset. simpl. apply IH. lia. }
  split; [by apply Hloop|]. unfold eliminateMults. by apply Hloop.
Qed.

Lemma eliminate_zero_never_ends_witness :
  0 < 1 <= size (calloc 1) /\
  eliminateMults (fun _ => 0) 0 0 0 1 (calloc 1) = Timeout.
Proof.
  assert (H : 0 < 1 <= size (calloc 1))
    by (vm_compute; split; [reflexivity|discriminate]).
  split; [exact H|].
  exact (proj2 (eliminate_zero_never_ends (fun _ => 0) 0 1 (calloc 1) H)).
Defined.

(** ** setToOne on any memory *)

(** X9.  setToOne with a bit offset from 0 to 7: inside the block it
    returns, the block keeps its size, the bit [8 * i + k] is set and every
    other bit has the value it had; outside the block it is a fault. *)
Theorem setToOne_sets_one_bit (beyond : Z -> Z) (i k : Z) (m : mem) :
  0 <= k <= 7 ->
  (0 <= i < size m ->
   exists m', setToOne beyond i k m = Ok m'
     /\ size m' = size m
     /\ marked beyond m' (8 * i + k) = true
     /\ forall n, 0 <= n -> n <> 8 * i + k ->
          marked beyond m' n = marked beyond m n)
  /\ (~ 0 <= i < size m -> setToOne beyond i k m = Fault).
Proof.
  intros Hk. split; [|apply setToOne_outside].
  intros Hi.
  destruct (setToOne_inside beyond i k m Hi Hk) as (m' & Hrun & Hsz & _ & _ & Hbits).
  exists m'. split; [exact Hrun|]. split; [exact Hsz|].
  unfold CHAR_BIT in Hbits. split.
  - rewrite Hbits by lia. rewrite Z.eqb_refl. apply orb_true_r.
  - intros n Hn Hne. rewrite Hbits by done.
    destruct (Z.eqb_spec n (8 * i + k)); [done|apply orb_false_r].
Qed.

Lemma setToOne_sets_one_bit_witness :
  0 <= 5 <= 7 /\ setToOne (fun _ => 0) 3 5 (calloc 2) = Fault.
Proof.
  assert (Hk : 0 <= 5 <= 7) by lia.
  split; [exact Hk|].
  apply (proj2 (setToOne_sets_one_bit (fun _ => 0) 3 5 (calloc 2) Hk)).
  vm_compute. intros [_ H]. discriminate H.
Defined.

(** X10.  Two stores of setToOne may be swapped: if one after the other
    they return a memory, then in the other order they return the same
    memory. *)
Theorem setToOne_commute (beyond : Z -> Z) (i k j l : Z) (m m1 m12 : mem) :
  setToOne beyond i k m = Ok m1 -> setToOne beyond j l m1 = Ok m12 ->
  exists m2, setToOne beyond j l m = Ok m2 /\ setToOne beyond i k m2 = Ok m12.
Proof.
  intros H1 H12.
  destruct (setToOne_inv beyond i k m m1 H1) as (b & Hi & Hb & ->).
  destruct (setToOne_inv beyond j l _ m12 H12) as (b' & Hj & Hb' & ->).
  unfold size in Hi, Hj. simpl in Hj, Hb'. rewrite length_insert in Hj.
  assert (Hstep : forall i k m b, 0 <= i < size m ->
            bytes m !! Z.to_nat i = Some b ->
            setToOne beyond i k m
            = Ok (Mem (<[Z.to_nat i := to_char (Z.lor b (Z.shiftr SPECIAL_ONE k))]>
                         (bytes m)) (strayed m))).
  { intros i0 k0 m0 b0 Hin Hlk. unfold setToOne.
    rewrite load_inside by done. unfold store.
    rewrite (proj2 (in_block_iff i0 m0) Hin). by rewrite Hlk. }
  destruct (decide (i = j)) as [<-|Hne].
  - rewrite list_lookup_insert_eq in Hb' by lia. injection Hb' as <-.
    eexists. split; [by apply Hstep|].
    rewrite (Hstep i k _ (to_char (Z.lor b (Z.shiftr SPECIAL_ONE l)))).
    + simpl. rewrite !list_insert_insert_eq. do 2 f_equal.
      f_equal. apply Z.bits_inj'. intros n Hn.
      rewrite !to_char_testbit, !Z.lor_spec, !to_char_testbit, !Z.lor_spec by done.
      destruct (n <? 8), (Z.testbit b n), (Z.testbit (Z.shiftr SPECIAL_ONE k) n),
        (Z.testbit (Z.shiftr SPECIAL_ONE l) n); reflexivity.
    + unfold size. simpl. rewrite length_insert. lia.
    + simpl. apply list_lookup_insert_eq. lia.
  - rewrite list_lookup_insert_ne in Hb' by lia.
    eexists. split; [apply Hstep; [unfold size; lia|exact Hb']|].
    rewrite (Hstep i k _ b).
    + simpl. by rewrite list_insert_insert_ne by lia.
    + unfold size. simpl. rewrite length_insert. lia.
    + simpl. rewrite list_lookup_insert_ne by lia. done.
Qed.

Lemma setToOne_commute_witness :
  setToOne (fun _ => 0) 0 3 (calloc 1) = Ok (Mem [16] false) /\
  setToOne (fun _ => 0) 0 6 (Mem [16] false) = Ok (Mem [18] false) /\
  exists m2, setToOne (fun _ => 0) 0 6 (calloc 1) = Ok m2
    /\ setToOne (fun _ => 0) 0 3 m2 = Ok (Mem [18] false).
Proof.
  assert (H1 : setToOne (fun _ => 0) 0 3 (calloc 1) = Ok (Mem [16] false))
    by reflexivity.
  assert (H2 : setToOne (fun _ => 0) 0 6 (Mem [16] false) = Ok (Mem [18] false))
    by reflexivity.
  split; [exact H1|]. split; [exact H2|].
  exact (setToOne_commute (fun _ => 0) 0 3 0 6 _ _ _ H1 H2).
Defined.

(** ** Two eliminations *)

(** X11.  On a block of at most [2 ^ 30] bytes, the largest that main
    can ask for, the multiples of two integers may be crossed out in
    either order: for two cursors with bit offsets from 0 to 7 on
    integers [p1 >= 1] and [p2 >= 1] that have a bit in the block,
    eliminateMults for the first and then for the second returns the same
    memory as eliminateMults for the second and then for the first. *)
Theorem eliminateMults_commute (beyond : Z -> Z) (q1 r1 q2 r2 : Z) (m : mem) :
  0 <= r1 <= 7 -> 1 <= 8 * q1 + r1 < 8 * size m ->
  0 <= r2 <= 7 -> 1 <= 8 * q2 + r2 < 8 * size m ->
  size m <= 2 ^ 30 -> wf m ->
  exists ma mb mab,
    eliminateMults beyond 0 q1 r1 (size m) m = Ok ma
    /\ eliminateMults beyond 0 q2 r2 (size m) ma = Ok mab
    /\ eliminateMults beyond 0 q2 r2 (size m) m = Ok mb
    /\ eliminateMults beyond 0 q1 r1 (size m) mb = Ok mab.
Proof.
  intros Hr1 [Hp1 _] Hr2 [Hp2 _] _ Hwf.
  destruct (eliminateMults_spec beyond q1 r1 (size m) m)
    as (ma & Ha & Hsa & Hta & Hwa & Hba); [done|lia|done|lia|].
  destruct (eliminateMults_spec beyond q2 r2 (size m) ma)
    as (mab & Hab & Hsab & Htab & Hwab & Hbab); [done|lia|done|lia|].
  destruct (eliminateMults_spec beyond q2 r2 (size m) m)
    as (mb & Hb & Hsb & Htb & Hwb & Hbb); [done|lia|done|lia|].
  destruct (eliminateMults_spec beyond q1 r1 (size m) mb)
    as (mba & Hba' & Hsba & Htba & Hwba & Hbba); [done|lia|done|lia|].
  exists ma, mb, mab. split; [exact Ha|]. split; [exact Hab|].
  split; [exact Hb|]. rewrite Hba'. f_equal.
  assert (Hbytes : bytes mba = bytes mab).
  { apply (bytes_ext beyond); [tauto|tauto|congruence|].
    intros n Hn. apply eq_true_iff_eq.
    rewrite Hbba, Hbb, Hbab, Hba by lia. tauto. }
  destruct mab, mba. simpl in *. congruence.
Qed.

Lemma eliminateMults_commute_witness :
  0 <= 2 <= 7 /\ 1 <= 8 * 0 + 2 < 8 * size (calloc 4) /\
  0 <= 3 <= 7 /\ 1 <= 8 * 0 + 3 < 8 * size (calloc 4) /\
  size (calloc 4) <= 2 ^ 30 /\ wf (calloc 4) /\
  exists ma mb mab,
    eliminateMults (fun _ => 0) 0 0 2 (size (calloc 4)) (calloc 4) = Ok ma
    /\ eliminateMults (fun _ => 0) 0 0 3 (size (calloc 4)) ma = Ok mab
    /\ eliminateMults (fun _ => 0) 0 0 3 (size (calloc 4)) (calloc 4) = Ok mb
    /\ eliminateMults (fun _ => 0) 0 0 2 (size (calloc 4)) mb = Ok mab.
Proof.
  pose proof (calloc_wf 4) as Hwf.
  assert (H1 : 1 <= 8 * 0 + 2 < 8 * size (calloc 4)) by (split; vm_compute; done).
  assert (H2 : 1 <= 8 * 0 + 3 < 8 * size (calloc 4)) by (split; vm_compute; done).
  assert (Hfit : size (calloc 4) <= 2 ^ 30) by (vm_compute; discriminate).
  split; [lia|]. split; [exact H1|]. split; [lia|]. split; [exact H2|].
  split; [exact Hfit|]. split; [exact Hwf|].
  apply (eliminateMults_commute (fun _ => 0) 0 2 0 3 (calloc 4));
    (lia || assumption).
Defined.

(** ** What the sieve crosses out *)

(** X12.  In findPrimes on a zeroed block of [B >= 1] bytes, at the head
    of the loop, a cursor that has not the value [-1] and stands for an
    integer of the block stands for a prime whose bit is clear: the
    multiples of a composite number are never crossed out. *)
Theorem sieve_cursors_are_primes (beyond : Z -> Z) (B endsqrt : Z)
    (s0 s : cursor * mem) :
  1 <= B ->
  sieve_init beyond 0 (calloc B) = Ok s0 ->
  reach (sieve_round beyond 0 endsqrt B) s0 s ->
  ind (fst s) <> -1 -> pos (fst s) < 8 * B ->
  Z.prime (pos (fst s)) /\ marked beyond (snd s) (pos (fst s)) = false.
Proof.
  intros HB Hinit Hreach Hlive Hin.
  set (J := fun s : cursor * mem =>
              ind (fst s) = -1
              \/ (sieve_inv beyond s /\ size (snd s) = B
                  /\ (pos (fst s) < 8 * B ->
                      marked beyond (snd s) (pos (fst s)) = false))).
  assert (H0 : J s0).
  { destruct (sieve_init_calloc beyond B HB) as (m0 & Hr0 & Hs0 & _ & Hinv).
    destruct (sieve_init_spec beyond (calloc B)) as (m0' & Hr0' & _ & _ & _ & Hb0);
      [by rewrite calloc_size by lia|].
    rewrite Hr0 in Hinit, Hr0'. injection Hinit as <-. injection Hr0' as <-.
    right. split; [exact Hinv|]. split; [exact Hs0|]. simpl.
    change (pos (Cursor 0 0 2)) with 2. intros _.
    rewrite Hb0 by lia. rewrite calloc_clear by lia. reflexivity. }
  assert (Hstep : forall s s', ind (fst s) <> -1 ->
            sieve_round beyond 0 endsqrt B s = Ok s' -> J s -> J s').
  { intros [c m] [c' m'] Hne Hbody [He|(Hinv & Hsz & _)]; [done|].
    simpl in Hsz. rewrite <- Hsz in Hbody.
    destruct (sieve_round_spec beyond endsqrt c m Hinv)
      as (c2 & m2 & Hrun & Hsz2 & _ & _ & Hres).
    rewrite Hrun in Hbody. injection Hbody as -> ->.
    destruct Hres as [[Hex _]|[Hinv' _]]; [by left|].
    right. split; [exact Hinv'|]. split; [simpl; congruence|]. simpl. intros _.
    destruct Hinv as (Hl & Ha & Hq & _).
    unfold sieve_round in Hrun.
    destruct (eliminateMults beyond 0 (pointind c) (ind c) (size m) m)
      as [m1| |]; try done.
    simpl in Hrun.
    destruct (searchForZero_spec beyond endsqrt c m1 Hl Ha Hq)
      as (c3 & m3 & Hrun3 & Hb3 & _ & _ & _ & Hres3).
    rewrite Hrun in Hrun3. injection Hrun3 as <- <-.
    destruct Hres3 as [[Hex _]|(_ & _ & Hclear & _)].
    - destruct Hinv' as (Hl' & _). simpl in Hl'. red in Hl'. lia.
    - by rewrite (marked_bytes beyond m1 m'). }
  assert (Hall : forall a b,
            reach (sieve_round beyond 0 endsqrt B) a b -> J a -> J b).
  { induction 1 as [a|a a1 a2 Hne Hbody Hrest IH]; [done|].
    intros Ha. apply IH. by apply (Hstep a). }
  pose proof (Hall s0 s Hreach H0) as HJ.
  destruct HJ as [He|(Hinv & Hsz & Hclear)]; [done|].
  specialize (Hclear Hin). split; [|exact Hclear].
  destruct Hinv as (_ & _ & _ & Hp & _ & _ & Hcr & _).
  destruct (prime_or_not (pos (fst s))) as [Hprime|Hnp]; [done|].
  exfalso.
  destruct (composite_factor (pos (fst s)) Hp Hnp) as (f & k & Hf & Hfk & Heq).
  pose proof (Z.prime_ge_2 f Hf) as Hf2.
  rewrite Heq in Hclear. rewrite Hcr in Hclear; [done|done|nia|done|].
  rewrite Hsz. lia.
Qed.

Lemma sieve_cursors_are_primes_witness :
  1 <= 1 /\
  sieve_init (fun _ => 0) 0 (calloc 1) = Ok (Cursor 0 0 2, Mem [192] false) /\
  Z.prime (pos (Cursor 0 0 2)).
Proof.
  assert (Hinit : sieve_init (fun _ => 0) 0 (calloc 1)
                  = Ok (Cursor 0 0 2, Mem [192] false)) by reflexivity.
  split; [lia|]. split; [exact Hinit|].
  refine (proj1 (sieve_cursors_are_primes (fun _ => 0) 1 2 _ (Cursor 0 0 2, Mem [192] false)
                   _ Hinit (reach_here _ _) _ _)).
  - lia.
  - simpl. lia.
  - vm_compute. reflexivity.
Defined.

(** ** Integer ranges *)

(** X13.  For a cursor with a bit offset from 0 to 7 on an integer of a
    block of at most [2 ^ 30] bytes, the largest block that main asks
    for, every number that eliminateMults computes on its way to the
    square fits its C type: the products and the byte offset of the
    square fit a 64-bit [long], the square of the bit offset fits a
    [char], and in the loop the bit offset reaches at most 14 before its
    carry. *)
Theorem eliminateMults_fits (q r B : Z) :
  0 <= r <= 7 -> 0 <= q -> 8 * q + r < 8 * B -> B <= 2 ^ 30 ->
  0 <= CHAR_BIT * q * q < 2 ^ 63
  /\ 0 <= CHAR_BIT * q * q + 2 * q * r < 2 ^ 63
  /\ 0 <= fst (eliminate_start 0 q r) < 2 ^ 63
  /\ 0 <= r * r < 2 ^ 7
  /\ forall c, 0 <= snd c <= 7 -> fst c < B ->
       0 <= snd c + r <= 14 /\ fst (advance q r c) < 2 ^ 31.
Proof.
  intros Hr Hq Hin HB.
  change (2 ^ 30) with 1073741824 in HB.
  change (2 ^ 63) with 9223372036854775808.
  change (2 ^ 31) with 2147483648. change (2 ^ 7) with 128.
  assert (Hq' : q < 1073741824) by lia.
  destruct (eliminate_start_spec q r Hr) as [Hpos Hrange].
  pose proof (eliminate_start_fst q r Hr Hq) as Hfst.
  unfold CHAR_BIT. split; [nia|]. split; [nia|]. split; [nia|].
  split; [nia|]. intros c Hc Hlt. split; [lia|].
  unfold advance, CHAR_BIT. destruct (8 <=? snd c + r); simpl; lia.
Qed.

Lemma eliminateMults_fits_witness :
  0 <= 7 <= 7 /\ 0 <= 2 ^ 30 - 1 /\ 8 * (2 ^ 30 - 1) + 7 < 8 * 2 ^ 30
  /\ 2 ^ 30 <= 2 ^ 30
  /\ 0 <= fst (eliminate_start 0 (2 ^ 30 - 1) 7) < 2 ^ 63.
Proof.
  assert (H1 : 0 <= 7 <= 7) by lia.
  assert (H2 : 0 <= 2 ^ 30 - 1) by lia.
  assert (H3 : 8 * (2 ^ 30 - 1) + 7 < 8 * 2 ^ 30) by lia.
  assert (H4 : 2 ^ 30 <= 2 ^ 30) by lia.
  split; [exact H1|]. split; [exact H2|]. split; [exact H3|]. split; [exact H4|].
  exact (proj1 (proj2 (proj2 (eliminateMults_fits (2 ^ 30 - 1) 7 (2 ^ 30) H1 H2 H3 H4)))).
Defined.

(** ** The cursor that searchForZero returns *)

Lemma search_loop_pointer (beyond : Z -> Z) (fuel : nat) (end_ : Z) :
  forall (c c' : cursor) (m m' : mem),
  live c -> search_loop beyond fuel end_ c m = Ok (c', m') ->
  (ind c' = -1 /\ end_ <= current c') \/ (live c' /\ current c' < end_).
Proof.
  induction fuel as [|fuel IH]; intros c c' m m' Hl; simpl;
    destruct (Z.ltb_spec (current c) end_); try done;
    try (intros [= <- <-]; by left).
  destruct (load beyond (current c) m) as [b m1].
  destruct (is_zero b (ind c)).
  - intros [= <- <-]. by right.
  - apply IH. by apply next_bit_live.
Qed.

(** X14.  searchForZero from a live cursor, on any memory: when it returns
    with [ind = -1] its pointer has reached [end_], and otherwise the
    cursor is live, its pointer lies before [end_], and the pointer and
    the index have moved by the same number of bytes. *)
Theorem searchForZero_pointer (beyond : Z -> Z) (end_ : Z) (c c' : cursor)
    (m m' : mem) :
  live c -> searchForZero beyond end_ c m = Ok (c', m') ->
  ((ind c' = -1 /\ end_ <= current c') \/ (live c' /\ current c' < end_))
  /\ current c' - current c = pointind c' - pointind c
  /\ current c <= current c'.
Proof.
  intros Hl Hrun. split.
  - unfold searchForZero in Hrun.
    apply (search_loop_pointer beyond _ _ _ _ _ _ (next_bit_live c Hl) Hrun).
  - unfold searchForZero in Hrun. revert Hrun.
    generalize (Z.to_nat (CHAR_BIT * (end_ - current (next_bit c)) - ind (next_bit c))).
    assert (Hnext : current (next_bit c) - current c
                    = pointind (next_bit c) - pointind c
                    /\ current c <= current (next_bit c)).
    { unfold next_bit. destruct (CHAR_BIT <=? ind c + 1); simpl; lia. }
    revert Hnext. generalize (next_bit c) as d. intros d Hd fuel. revert d Hd m.
    induction fuel as [|fuel IH]; intros d Hd m0; simpl;
      destruct (current d <? end_); try done;
      try (intros [= <- <-]; simpl; lia).
    destruct (load beyond (current d) m0) as [b m1].
    destruct (is_zero b (ind d)); [intros [= <- <-]; lia|].
    apply IH. unfold next_bit. destruct (CHAR_BIT <=? ind d + 1); simpl; lia.
Qed.

Lemma searchForZero_pointer_witness :
  live (Cursor 0 0 7) /\
  searchForZero (fun _ => 0) 1 (Cursor 0 0 7) (calloc 1)
  = Ok (Cursor 1 1 (-1), calloc 1) /\
  current (Cursor 1 1 (-1)) - current (Cursor 0 0 7)
  = pointind (Cursor 1 1 (-1)) - pointind (Cursor 0 0 7).
Proof.
  assert (Hl : live (Cursor 0 0 7)) by (red; simpl; lia).
  assert (Hrun : searchForZero (fun _ => 0) 1 (Cursor 0 0 7) (calloc 1)
                 = Ok (Cursor 1 1 (-1), calloc 1)) by reflexivity.
  split; [exact Hl|]. split; [exact Hrun|].
  exact (proj1 (proj2 (searchForZero_pointer (fun _ => 0) 1 _ _ _ _ Hl Hrun))).
Defined.

(** ** An argument with text after the number *)

(** X15.  main reads only the number at the head of its argument: for an
    exponent [P >= 3], the run whose argument is the decimal text of [P]
    followed by anything that does not begin with a digit is the run
    whose argument is the decimal text of [P] alone. *)
Theorem main_ignores_trailing_text (beyond : Z -> Z) (got_block got_file : bool)
    (prog : string) (P : Z) (tail : string) :
  3 <= P -> no_digit_first tail ->
  main beyond got_block got_file [prog; String.append (decimal P) tail]
  = main beyond got_block got_file [prog; decimal P].
Proof.
  intros HP Htail. unfold main, read_power. simpl length. simpl nth.
  by rewrite (atoi_ignores_tail P tail Htail).
Qed.

Lemma main_ignores_trailing_text_witness :
  3 <= 4 /\ no_digit_first "abc" /\
  main (fun _ => 0) true true ["primes"; String.append (decimal 4) "abc"]%string
  = main (fun _ => 0) true true ["primes"; decimal 4]%string.
Proof.
  assert (H : no_digit_first "abc") by reflexivity.
  split; [lia|]. split; [exact H|].
  apply (main_ignores_trailing_text (fun _ => 0) true true "primes" 4 "abc");
    [lia|exact H].
Defined.

(** ** findPrimes on a block that is not fresh *)

Lemma sieve_loop_total (beyond : Z -> Z) (endsqrt : Z) (fuel : nat) :
  forall (c : cursor) (m : mem),
  live c -> agree 0 c -> 0 <= pointind c -> 2 <= pos c ->
  (Z.to_nat (8 * endsqrt - pos c) < fuel)%nat ->
  exists m', sieve_loop beyond fuel 0 endsqrt (size m) (c, m) = Ok m'
    /\ size m' = size m
    /\ (endsqrt <= size m -> strayed m' = strayed m).
Proof.
  induction fuel as [|fuel IH]; intros c m Hl Ha Hq Hp Hfuel; [lia|].
  simpl. destruct (Z.eqb_spec (ind c) (-1)) as [He|_]; [red in Hl; lia|].
  destruct (eliminateMults_spec beyond (pointind c) (ind c) (size m) m)
    as (m1 & Hrun1 & Hsz1 & Hst1 & _); [exact Hl|done|cursor_arith|lia|].
  rewrite Hrun1. simpl.
  destruct (searchForZero_spec beyond endsqrt c m1 Hl Ha Hq)
    as (c' & m2 & Hrun2 & Hb2 & Ha2 & Hq2 & Hst2 & Hres).
  rewrite Hrun2. simpl.
  assert (Hsz2 : size m2 = size m) by (unfold size in *; by rewrite Hb2).
  assert (Hst : endsqrt <= size m -> strayed m2 = strayed m).
  { intros Hend. rewrite Hst2 by lia. exact Hst1. }
  destruct Hres as [[Hex _]|(Hlive & Hrange & _)].
  - rewrite sieve_loop_done by done. by exists m2.
  - destruct (IH c' m2 Hlive Ha2 Hq2) as (m' & Hrun' & Hsz' & Hst');
      [lia|lia|].
    rewrite Hsz2 in Hrun'. exists m'. split; [exact Hrun'|].
    split; [congruence|]. intros Hend. rewrite Hst' by lia. by apply Hst.
Qed.

(** X16.  findPrimes on a block of 1 to [2 ^ 30] bytes, the sizes that
    main can ask for, whatever the block holds, and with a cutoff that
    does not lie past the end of the block: it returns without a load
    outside the block, the block keeps its size, the bits of 0 and 1 are
    set, and no bit that was set is clear. *)
Theorem findPrimes_total (beyond : Z -> Z) (endsqrt : Z) (m : mem) :
  1 <= size m <= 2 ^ 30 -> endsqrt <= size m ->
  exists m', findPrimes beyond 0 endsqrt (size m) m = Ok m'
    /\ size m' = size m
    /\ strayed m' = strayed m
    /\ marked beyond m' 0 = true /\ marked beyond m' 1 = true
    /\ grows beyond m m'.
Proof.
  intros [Hsz _] Hend. unfold findPrimes.
  destruct (sieve_init_spec beyond m Hsz) as (m0 & Hr0 & Hs0 & Hst0 & _ & Hb0).
  rewrite Hr0. simpl.
  destruct (sieve_loop_total beyond endsqrt
              (S (Z.to_nat (CHAR_BIT * (endsqrt - 0)))) (Cursor 0 0 2) m0)
    as (m' & Hrun & Hs' & Hst'); [red; simpl; lia|reflexivity|simpl; lia| | |].
  { unfold pos, CHAR_BIT. simpl. lia. }
  { unfold pos, CHAR_BIT. simpl. lia. }
  rewrite Hs0 in Hrun. exists m'. split; [exact Hrun|]. split; [congruence|].
  split; [rewrite Hst' by lia; exact Hst0|].
  destruct (sieve_loop_reach beyond _ _ _ _ _ _ Hrun) as (c' & Hreach & _).
  apply reach_sieve_grows in Hreach. simpl in Hreach.
  split; [|split].
  - apply Hreach; [lia|]. rewrite Hb0 by lia. simpl. by rewrite orb_true_r.
  - apply Hreach; [lia|]. rewrite Hb0 by lia. simpl. by rewrite orb_true_r.
  - intros n Hn Hm. apply Hreach; [done|]. rewrite Hb0 by done. by rewrite Hm.
Qed.

Lemma findPrimes_total_witness :
  1 <= size (Mem [5; 255] false) <= 2 ^ 30 /\
  2 <= size (Mem [5; 255] false) /\
  exists m', findPrimes (fun _ => 0) 0 2 (size (Mem [5; 255] false))
               (Mem [5; 255] false) = Ok m'
    /\ size m' = size (Mem [5; 255] false)
    /\ strayed m' = strayed (Mem [5; 255] false)
    /\ marked (fun _ => 0) m' 0 = true /\ marked (fun _ => 0) m' 1 = true
    /\ grows (fun _ => 0) (Mem [5; 255] false) m'.
Proof.
  assert (H : 1 <= size (Mem [5; 255] false) <= 2 ^ 30)
    by (split; vm_compute; discriminate).
  assert (He : 2 <= size (Mem [5; 255] false)) by (vm_compute; discriminate).
  split; [exact H|]. split; [exact He|].
  exact (findPrimes_total (fun _ => 0) 2 (Mem [5; 255] false) H He).
Defined.

(** X17.  findPrimes run again on the block that it has sieved changes no
    byte: for a zeroed block of [B] bytes, from 1 byte to the [2 ^ 30]
    bytes that main can ask for at most, and a cutoff [endsqrt] inside the
    block such that the square of [8 * endsqrt] covers the bits of the
    block, the second run returns with the bytes that the first run
    left. *)
Theorem findPrimes_idempotent (beyond : Z -> Z) (B endsqrt : Z) :
  1 <= B <= 2 ^ 30 -> 0 <= endsqrt <= B ->
  8 * B <= (8 * endsqrt) * (8 * endsqrt) ->
  exists m m2,
    findPrimes beyond 0 endsqrt B (calloc B) = Ok m
    /\ findPrimes beyond 0 endsqrt B m = Ok m2
    /\ bytes m2 = bytes m.
Proof.
  intros [HB _] [He _] Hcover.
  destruct (findPrimes_calloc beyond B endsqrt HB) as (m & Hrun & Hsz & _ & Hsv).
  pose proof (sieved_primes beyond m (8 * endsqrt) ltac:(lia)
                ltac:(by rewrite Hsz) Hsv) as Hchar.
  destruct Hsv as (Hwf & Hsound & Hcr & H0 & H1).
  destruct (sieve_init_spec beyond m) as (m0 & Hr0 & Hs0 & _ & Hwf0 & Hb0); [lia|].
  assert (Hinv : sieve_inv beyond (Cursor 0 0 2, m0)).
  { split; [red; simpl; lia|]. split; [reflexivity|]. split; [simpl; lia|].
    split; [unfold pos, CHAR_BIT; simpl; lia|]. simpl.
    split; [by apply Hwf0|]. split; [|split; [|split]].
    - intros n Hn. rewrite Hs0 in Hn. rewrite Hb0 by lia.
      rewrite !orb_true_iff, !Z.eqb_eq.
      intros [[Hm| ->]| ->];
        [by apply Hsound|apply Z.not_prime_0|apply Z.not_prime_1].
    - intros f k Hf Hlt. pose proof (Z.prime_ge_2 f Hf).
      unfold pos, CHAR_BIT in Hlt. simpl in Hlt. lia.
    - rewrite Hb0 by lia. simpl. by rewrite orb_true_r.
    - rewrite Hb0 by lia. simpl. by rewrite orb_true_r. }
  destruct (sieve_loop_spec beyond endsqrt
              (S (Z.to_nat (CHAR_BIT * (endsqrt - 0)))) (Cursor 0 0 2) m0 Hinv)
    as (m2 & Hrun2 & Hs2 & _ & _ & Hsv2).
  { unfold pos, CHAR_BIT. simpl. lia. }
  exists m, m2. split; [exact Hrun|]. split.
  - unfold findPrimes. rewrite Hr0. simpl.
    rewrite Hs0, Hsz in Hrun2. exact Hrun2.
  - pose proof (sieved_primes beyond m2 (8 * endsqrt) ltac:(lia)
                  ltac:(rewrite Hs2, Hs0, Hsz; exact Hcover) Hsv2) as Hchar2.
    apply (bytes_ext beyond); [apply Hsv2|exact Hwf|congruence|].
    intros n Hn. specialize (Hchar2 n Hn).
    specialize (Hchar n ltac:(rewrite <- Hs0, <- Hs2; exact Hn)).
    destruct (marked beyond m2 n), (marked beyond m n);
      tauto || (exfalso; intuition congruence).
Qed.

Lemma findPrimes_idempotent_witness :
  1 <= 2 <= 2 ^ 30 /\ 0 <= 1 <= 2 /\ 8 * 2 <= (8 * 1) * (8 * 1) /\
  exists m m2,
    findPrimes (fun _ => 0) 0 1 2 (calloc 2) = Ok m
    /\ findPrimes (fun _ => 0) 0 1 2 m = Ok m2
    /\ bytes m2 = bytes m.
Proof.
  assert (HB : 1 <= 2 <= 2 ^ 30) by (split; vm_compute; discriminate).
  split; [exact HB|]. split; [lia|]. split; [lia|].
  apply (findPrimes_idempotent (fun _ => 0) 2 1); [exact HB|lia|lia].
Defined.
